(** * ngwmn-ui: well-log derivations, retrieval gate and median table

    A shallow embedding of
    - [assets/src/scripts/components/graph/state/well-log.js]
      (the reselect selectors deriving extents and construction geometry),
    - [assets/src/scripts/components/median-water-level-table/index.js]
      (the component's retrieval gate and [drawTableBody]),
    - the behaviour of [retrieveWaterLevels] exercised by the service
      state test suite.

    Conventions of the embedding.
    - A JavaScript number is a [num]: an exact rational, [Infinity],
      [-Infinity] or [NaN].  Rounding and the negative zero are not
      modelled.  Finite results are kept in lowest terms ([Qred]), as a
      double has one representation per value.
    - Numbers inside decoded service records (depths, diameters, sample
      values) are finite, so they are rationals [Q]; a nullable field is an
      [option].
    - A property read on [undefined] raises: fallible selectors return a
      [result].
    - [createSelector] and [memoize] only cache pure functions; a selector
      is modelled as the composition of its input selectors with its
      combiner. *)

From Stdlib Require Import ZArith QArith Qreduction Lqa Lia Bool.
From Stdlib Require Import Sorting.Sorted Sorting.Permutation.
From stdpp Require Import base option list strings pretty gmap.

Set Default Proof Using "Type".
Local Open Scope Z_scope.

(** ** JavaScript numbers *)

Inductive num : Type :=
| Fin (q : Q)
| PInf
| NInf
| NaN.

Definition num_isNaN (a : num) : bool :=
  match a with NaN => true | _ => false end.

(** [isFinite(a)] *)
Definition isFinite (a : num) : bool :=
  match a with Fin _ => true | _ => false end.

(** ToBoolean on a number: [0] and [NaN] are falsy. *)
Definition truthy (a : num) : bool :=
  match a with
  | Fin q => negb (Qeq_bool q 0)
  | PInf | NInf => true
  | NaN => false
  end.

Definition Qlt_bool (a b : Q) : bool := negb (Qle_bool b a).

(** [a < b] *)
Definition num_lt (a b : num) : bool :=
  match a, b with
  | Fin x, Fin y => Qlt_bool x y
  | Fin _, PInf => true
  | NInf, Fin _ => true
  | NInf, PInf => true
  | _, _ => false
  end.

(** [a > b] *)
Definition num_gt (a b : num) : bool := num_lt b a.

(** [a == b] on numbers (numeric equality; [NaN] equals nothing). *)
Definition num_eqb (a b : num) : bool :=
  match a, b with
  | Fin x, Fin y => Qeq_bool x y
  | PInf, PInf | NInf, NInf => true
  | _, _ => false
  end.

(** Unary minus. *)
Definition num_neg (a : num) : num :=
  match a with
  | Fin q => Fin (Qred (- q))
  | PInf => NInf
  | NInf => PInf
  | NaN => NaN
  end.

(** [a - b] *)
Definition num_sub (a b : num) : num :=
  match a, b with
  | NaN, _ | _, NaN => NaN
  | Fin x, Fin y => Fin (Qred (x - y))
  | PInf, PInf | NInf, NInf => NaN
  | PInf, _ => PInf
  | NInf, _ => NInf
  | Fin _, PInf => NInf
  | Fin _, NInf => PInf
  end.

(** [a + b] *)
Definition num_add (a b : num) : num :=
  match a, b with
  | NaN, _ | _, NaN => NaN
  | Fin x, Fin y => Fin (Qred (x + y))
  | PInf, NInf | NInf, PInf => NaN
  | PInf, _ | _, PInf => PInf
  | NInf, _ | _, NInf => NInf
  end.

Definition Qsign_pos (q : Q) : bool := Qlt_bool 0 q.

(** [a * b] *)
Definition num_mul (a b : num) : num :=
  match a, b with
  | NaN, _ | _, NaN => NaN
  | Fin x, Fin y => Fin (Qred (x * y))
  | Fin x, _ =>
      if Qeq_bool x 0 then NaN else if Qsign_pos x then b else num_neg b
  | _, Fin y =>
      if Qeq_bool y 0 then NaN else if Qsign_pos y then a else num_neg a
  | PInf, PInf | NInf, NInf => PInf
  | PInf, NInf | NInf, PInf => NInf
  end.

(** [a / b] *)
Definition num_div (a b : num) : num :=
  match a, b with
  | NaN, _ | _, NaN => NaN
  | Fin x, Fin y =>
      if Qeq_bool y 0
      then (if Qeq_bool x 0 then NaN else if Qsign_pos x then PInf else NInf)
      else Fin (Qred (x / y))
  | Fin _, _ => Fin 0
  | _, Fin y => if Qlt_bool y 0 then num_neg a else a
  | _, _ => NaN
  end.

(** [Math.min(...xs)]: the running lowest value starts at [Infinity] and
    the arguments are visited left to right; an argument replaces it when
    it is strictly smaller; any [NaN] argument makes the result [NaN]. *)
Definition min_step (lowest x : num) : num :=
  match lowest, x with
  | NaN, _ | _, NaN => NaN
  | _, _ => if num_lt x lowest then x else lowest
  end.

Definition Math_min (xs : list num) : num := foldl min_step PInf xs.

(** [Math.max(...xs)]: the running highest value starts at [-Infinity]. *)
Definition max_step (highest x : num) : num :=
  match highest, x with
  | NaN, _ | _, NaN => NaN
  | _, _ => if num_lt highest x then x else highest
  end.

Definition Math_max (xs : list num) : num := foldl max_step NInf xs.

(** ToNumber on a nullable number: [null] converts to [0]. *)
Definition to_num (v : option Q) : num :=
  match v with Some q => Fin q | None => Fin 0 end.

(** ** Property access that may raise *)

Inductive result (A : Type) : Type :=
| Ok (a : A)
| TypeError.
Arguments Ok {A} a.
Arguments TypeError {A}.

Definition rbind {A B} (m : result A) (f : A -> result B) : result B :=
  match m with Ok a => f a | TypeError => TypeError end.

Notation "x <-! m ; k" := (rbind m (fun x => k))
  (at level 100, m at next level, right associativity).

(** [xs.map(f)] for a callback that may raise: the first raise aborts. *)
Fixpoint rmap {A B} (f : A -> result B) (xs : list A) : result (list B) :=
  match xs with
  | [] => Ok []
  | x :: xs' => y <-! f x; ys <-! rmap f xs'; Ok (y :: ys)
  end.

Definition is_Ok {A} (m : result A) : bool :=
  match m with Ok _ => true | TypeError => false end.

(** ** Data model: decoded well-log records *)

Module Coordinates.
Record t : Type := mk { start : Q; end_ : Q }.
End Coordinates.

Module Shape.
Record t : Type := mk { coordinates : Coordinates.t }.
End Shape.

(** A lithology entry; only [shape] is read by the selectors. *)
Module Entry.
Record t : Type := mk { shape : Shape.t }.
End Entry.

Module Position.
Record t : Type := mk { coordinates : option Coordinates.t; unit : string }.
End Position.

Module Diameter.
Record t : Type := mk { value : option Q; unit : string }.
End Diameter.

(** A construction element.  [position] and [diameter] may be missing. *)
Module Element.
Record t : Type := mk {
  position : option Position.t;
  diameter : option Diameter.t;
  type : string
}.
End Element.

(** A well log; [{}] is the log with neither field. *)
Module WellLog.
Record t : Type := mk {
  log_entries : option (list Entry.t);
  construction : option (list Element.t)
}.
Definition empty : t := mk None None.
End WellLog.

(** ** Derived geometry *)

Module Side.
Record t : Type := mk { x : option num; y1 : num; y2 : num }.
End Side.

Module Part.
Record t : Type := mk {
  type : string;
  radius : num;
  title : string;
  thickness : num;
  left : Side.t;
  right : Side.t
}.
End Part.

Module Rect.
Record t : Type := mk { x : num; y : num; width : num; height : num }.
End Rect.

(** A d3 scale: callable, with a [range()] accessor. *)
Module Scale.
Record t : Type := mk { call : num -> num; range : num * num }.
End Scale.

(** The chart position of [./layout]. *)
Module Layout.
Record t : Type := mk { x : num; width : num }.
End Layout.

(** The cursor datum of [./cursor]: a sample [{value, ...}]. *)
Module Datum.
Record t : Type := mk { value : num }.
End Datum.

(** ** [Array.prototype.sort]

    The comparator is called as [cmp a b]; a positive answer puts [b]
    first.  The sort is stable (ECMAScript 2019), which for a consistent
    comparator fixes the result; it is modelled as a stable insertion
    sort.  For an inconsistent comparator (one that meets a [NaN] key) the
    order is implementation-defined: the model is used only on lists where
    the comparator is consistent. *)

Section ArraySort.
Context {A : Type} (cmp : A -> A -> Z).

Fixpoint sort_insert (a : A) (l : list A) : list A :=
  match l with
  | [] => [a]
  | b :: l' => if 0 <? cmp a b then b :: sort_insert a l' else a :: b :: l'
  end.

Definition Array_sort (l : list A) : list A := foldr sort_insert [] l.

(** The comparator lets [a] stay before [b]. *)
Definition keeps (a b : A) : Prop := cmp a b <= 0.

End ArraySort.

(** Reading a property of a value that may be [undefined]. *)
Definition req {A} (o : option A) : result A :=
  match o with Some a => Ok a | None => TypeError end.

(** ** well-log.js *)

Definition ChartType : Type := string.

(** What well-log.js imports: the selectors of the sibling state modules,
    d3's [scaleLinear] (as [scaleLinear().domain(d).range(r)]), lodash's
    [capitalize], and the conversion of a number inside a template
    literal. *)
Class Imports (State : Type) : Type := {
  getWellLogs : State -> gmap string WellLog.t;
  getCurrentSiteID : State -> string;
  getCursorDatum : State -> option Datum.t;
  getChartPosition : ChartType -> State -> Layout.t;
  getScaleX : ChartType -> State -> Scale.t;
  getScaleY : ChartType -> State -> Scale.t;
  scaleLinear : num * num -> num * num -> Scale.t;
  capitalize : string -> string;
  num_to_string : Q -> string
}.

Section WellLogSelectors.
Context {State : Type} `{Imports State}.

Definition getCurrentWellLog (s : State) : WellLog.t :=
  default WellLog.empty (getWellLogs s !! getCurrentSiteID s).

Definition getWellLogEntries (s : State) : list Entry.t :=
  default [] (WellLog.log_entries (getCurrentWellLog s)).

Definition entry_start (entry : Entry.t) : num :=
  Fin (Coordinates.start (Shape.coordinates (Entry.shape entry))).

Definition entry_end (entry : Entry.t) : num :=
  Fin (Coordinates.end_ (Shape.coordinates (Entry.shape entry))).

(** Combiner of [getWellLogEntriesExtentY]. *)
Definition entriesExtentY (wellLogEntries : list Entry.t) : num * num :=
  if (length wellLogEntries =? 0)%nat then (Fin 0, Fin 0)
  else (Math_min (map entry_start wellLogEntries),
        Math_max (map entry_end wellLogEntries)).

Definition getWellLogEntriesExtentY (s : State) : num * num :=
  entriesExtentY (getWellLogEntries s).

(** [element.position && element.position.coordinates] *)
Definition isDrawable (element : Element.t) : bool :=
  match Element.position element with
  | Some p => match Position.coordinates p with Some _ => true | None => false end
  | None => false
  end.

Definition getDrawableElements (s : State) : list Element.t :=
  List.filter isDrawable (default [] (WellLog.construction (getCurrentWellLog s))).

(** [elem.position.coordinates], about to be read. *)
Definition elem_coordinates (elem : Element.t) : result Coordinates.t :=
  p <-! req (Element.position elem); req (Position.coordinates p).

(** Combiner of [getConstructionExtentY]. *)
Definition constructionExtentY (elements : list Element.t) : result (num * num) :=
  starts <-! rmap (fun elem => c <-! elem_coordinates elem; Ok (Fin (Coordinates.start c))) elements;
  ends <-! rmap (fun elem => c <-! elem_coordinates elem; Ok (Fin (Coordinates.end_ c))) elements;
  Ok (Math_min starts, Math_max ends).

Definition getConstructionExtentY (s : State) : result (num * num) :=
  constructionExtentY (getDrawableElements s).

(** Combiner of [getWellLogExtentY]. *)
Definition wellLogExtentY (extentA extentB : num * num) : num * num :=
  (Math_min [fst extentA; fst extentB], Math_max [snd extentA; snd extentB]).

Definition getWellLogExtentY (s : State) : result (num * num) :=
  extentB <-! getConstructionExtentY s;
  Ok (wellLogExtentY (getWellLogEntriesExtentY s) extentB).

(** Combiner of [getWellWaterLevel(chartType)]. *)
Definition wellWaterLevel (xScale yScale : Scale.t) (cursorDatum : option Datum.t)
    (extentY : num * num) : option Rect.t :=
  match cursorDatum with
  | None => None
  | Some datum =>
      let top := Scale.call yScale (Datum.value datum) in
      let bottom := Scale.call yScale (snd extentY) in
      let xRange := Scale.range xScale in
      Some {| Rect.x := fst xRange;
              Rect.y := top;
              Rect.width := snd xRange;
              Rect.height := Math_max [num_sub bottom top; Fin 0] |}
  end.

Definition getWellWaterLevel (chartType : ChartType) (s : State) : result (option Rect.t) :=
  extentY <-! getConstructionExtentY s;
  Ok (wellWaterLevel (getScaleX chartType s) (getScaleY chartType s)
        (getCursorDatum s) extentY).

(** [.filter(part => part !== null)] *)
Definition non_null (values : list (option Q)) : list Q := omap id values.

(** Combiner of [getWellRadius]. *)
Definition wellRadius (elements : list Element.t) : result num :=
  values <-! rmap (fun part => d <-! req (Element.diameter part); Ok (Diameter.value d)) elements;
  let values := non_null values in
  if (length values =? 0)%nat then Ok (Fin 1)
  else Ok (num_div (Math_max (map Fin values)) (Fin 2)).

Definition getWellRadius (s : State) : result num :=
  wellRadius (getDrawableElements s).

Definition getRadiusScale (chartType : ChartType) (s : State) : result Scale.t :=
  wellRadius <-! getWellRadius s;
  let chartPos := getChartPosition chartType s in
  Ok (scaleLinear (num_neg wellRadius, wellRadius)
        (Layout.x chartPos, num_add (Layout.x chartPos) (Layout.width chartPos))).

(** [`${element.diameter.value}`] *)
Definition value_to_string (v : option Q) : string :=
  match v with Some q => num_to_string q | None => "null" end.

(** The callback of [elements.map] in [getConstructionElements]. *)
Definition makePart (xScale yScale : Scale.t) (element : Element.t) : result Part.t :=
  pos <-! req (Element.position element);
  let loc := Position.coordinates pos in
  let unit := Position.unit pos in
  diam <-! req (Element.diameter element);
  let radius := num_div (to_num (Diameter.value diam)) (Fin 2) in
  let diamStr :=
    if truthy radius
    then value_to_string (Diameter.value diam) +:+ " " +:+ Diameter.unit diam
    else "unknown" in
  loc <-! req loc;
  let locString :=
    num_to_string (Coordinates.start loc) +:+ " - " +:+
    num_to_string (Coordinates.end_ loc) +:+ " " +:+ unit in
  Ok {| Part.type := Element.type element;
        Part.radius := radius;
        Part.title := capitalize (Element.type element) +:+ ", " +:+ diamStr +:+
                      " diameter, " +:+ locString +:+ " depth";
        Part.thickness := num_sub (Scale.call xScale (Fin (1 # 2)))
                                  (Scale.call xScale (Fin 0));
        Part.left := {| Side.x := if truthy radius
                                  then Some (Scale.call xScale (num_neg radius))
                                  else None;
                        Side.y1 := Scale.call yScale (Fin (Coordinates.start loc));
                        Side.y2 := Scale.call yScale (Fin (Coordinates.end_ loc)) |};
        Part.right := {| Side.x := if truthy radius
                                   then Some (Scale.call xScale radius)
                                   else None;
                         Side.y1 := Scale.call yScale (Fin (Coordinates.start loc));
                         Side.y2 := Scale.call yScale (Fin (Coordinates.end_ loc)) |} |}.

Definition has_radius (part : Part.t) : bool := truthy (Part.radius part).

(** [part.left.x = l; part.right.x = r] *)
Definition set_x (side : Side.t) (v : num) : Side.t :=
  {| Side.x := Some v; Side.y1 := Side.y1 side; Side.y2 := Side.y2 side |}.

Definition assign_xs (part : Part.t) (l r : num) : Part.t :=
  {| Part.type := Part.type part;
     Part.radius := Part.radius part;
     Part.title := Part.title part;
     Part.thickness := Part.thickness part;
     Part.left := set_x (Part.left part) l;
     Part.right := set_x (Part.right part) r |}.

(** [.filter(neighbor => neighbor && neighbor.radius)] *)
Definition keep_neighbor (neighbor : option Part.t) : bool :=
  match neighbor with Some n => has_radius n | None => false end.

(** The two candidates of iteration [index], after the filter. *)
Definition neighbors (parts : list Part.t) (index : nat) : list (option Part.t) :=
  List.filter keep_neighbor
    [ List.find has_radius (reverse (take index parts));
      List.find has_radius (drop (S index) parts) ].

(** [neighbors.map(n => n.radius)] *)
Definition neighbor_radii (ns : list (option Part.t)) : list num :=
  omap (fun n => Part.radius <$> n) ns.

(** One iteration of the [for] loop over [parts]. *)
Definition fill_step (xScale : Scale.t) (parts : list Part.t) (index : nat) : list Part.t :=
  match parts !! index with
  | None => parts
  | Some part =>
      if has_radius part then parts
      else
        let min := Math_min (neighbor_radii (neighbors parts index)) in
        if truthy min && isFinite min
        then <[index := assign_xs part (Scale.call xScale (num_neg min))
                                       (Scale.call xScale min)]> parts
        else <[index := assign_xs part (Scale.call xScale (num_neg (Fin 1)))
                                       (Scale.call xScale (Fin 1))]> parts
  end.

(** The radius-inference loop, [index] from [0] to [parts.length - 1]. *)
Definition fillRadii (xScale : Scale.t) (parts : list Part.t) : list Part.t :=
  foldl (fill_step xScale) parts (seq 0 (length parts)).

(** The comparator given to [parts.sort]. *)
Definition compareParts (a b : Part.t) : Z :=
  if num_lt (Side.y2 (Part.left a)) (Side.y2 (Part.left b)) then 1
  else if num_gt (Side.y2 (Part.left a)) (Side.y2 (Part.left b)) then -1
  else if num_lt (Part.radius a) (Part.radius b) then 1
  else if num_gt (Part.radius a) (Part.radius b) then -1
  else 0.

(** Combiner of [getConstructionElements(chartType)]. *)
Definition constructionElements (elements : list Element.t) (xScale yScale : Scale.t)
    : result (list Part.t) :=
  parts <-! rmap (makePart xScale yScale) elements;
  Ok (Array_sort compareParts (fillRadii xScale parts)).

Definition getConstructionElements (chartType : ChartType) (s : State)
    : result (list Part.t) :=
  xScale <-! getRadiusScale chartType s;
  constructionElements (getDrawableElements s) xScale (getScaleY chartType s).

(** *** The radius-inference rule, in the words of the specification

    For an element with a falsy radius, the nearest preceding and the
    nearest following element with a truthy radius are looked up; the
    smaller of the radii found is used, and [1] when there is none. *)

Definition nearest_before (radii : list num) (index : nat) : option num :=
  last (List.filter truthy (take index radii)).

Definition nearest_after (radii : list num) (index : nat) : option num :=
  head (List.filter truthy (drop (S index) radii)).

Definition smaller (a b : num) : num := if num_lt b a then b else a.

Definition inferred_radius (radii : list num) (index : nat) : num :=
  match nearest_before radii index, nearest_after radii index with
  | Some l, Some r => smaller l r
  | Some l, None => l
  | None, Some r => r
  | None, None => Fin 1
  end.

(** The radius each element is drawn with. *)
Definition effective_radii (radii : list num) : list num :=
  imap (fun index r => if truthy r then r else inferred_radius radii index) radii.

(** The part at [index] once its x-coordinates are resolved. *)
Definition resolved (xScale : Scale.t) (radii : list num) (index : nat)
    (part : Part.t) : Part.t :=
  if has_radius part then part
  else
    let r := inferred_radius radii index in
    assign_xs part (Scale.call xScale (num_neg r)) (Scale.call xScale r).

(** The x-coordinates of a part drawn with radius [r]. *)
Definition xs_at (xScale : Scale.t) (r : num) : option num * option num :=
  (Some (Scale.call xScale (num_neg r)), Some (Scale.call xScale r)).

Definition part_xs (part : Part.t) : option num * option num :=
  (Side.x (Part.left part), Side.x (Part.right part)).

(** *** The z-order, in the words of the specification

    Descending by [left.y2], ties broken by descending [radius]. *)

Definition precedes (a b : Part.t) : Prop :=
  num_gt (Side.y2 (Part.left a)) (Side.y2 (Part.left b)) = true \/
  (num_eqb (Side.y2 (Part.left a)) (Side.y2 (Part.left b)) = true /\
   (num_gt (Part.radius a) (Part.radius b) = true \/
    num_eqb (Part.radius a) (Part.radius b) = true)).

(** Two parts with equal [(y2, radius)]. *)
Definition same_key (a b : Part.t) : bool :=
  num_eqb (Side.y2 (Part.left a)) (Side.y2 (Part.left b)) &&
  num_eqb (Part.radius a) (Part.radius b).

(** The vertical scale maps the end depth of [element] to a number other
    than [NaN]. *)
Definition scaled_end (yScale : Scale.t) (element : Element.t) : bool :=
  match elem_coordinates element with
  | Ok c => negb (num_isNaN (Scale.call yScale (Fin (Coordinates.end_ c))))
  | TypeError => true
  end.

(** Invariants of the parts built by [makePart]. *)
Definition finite_radius (part : Part.t) : Prop :=
  isFinite (Part.radius part) = true.

Definition good (p : Part.t) : Prop :=
  num_isNaN (Side.y2 (Part.left p)) = false /\ num_isNaN (Part.radius p) = false.

(** *** The overlay spanning a horizontal range

    The rectangle starts where the range starts and ends where it ends. *)
Definition spans (rect : Rect.t) (range : num * num) : bool :=
  num_eqb (Rect.x rect) (fst range) &&
  num_eqb (num_add (Rect.x rect) (Rect.width rect)) (snd range).

(** [element] carries a [diameter] object. *)
Definition has_diameter (element : Element.t) : bool :=
  match Element.diameter element with Some _ => true | None => false end.

End WellLogSelectors.

(** ** well-log.js: the lithology rectangles *)

Module LithRect.
Record t : Type := mk {
  x : num;
  y : num;
  width : num;
  height : num;
  entry : Entry.t
}.
End LithRect.

(** [v || 0] on a number. *)
Definition or_zero (v : num) : num := if truthy v then v else Fin 0.

Section LithologySelector.
Context {State : Type} `{Imports State}.

(** Combiner of [getLithology(chartType)]. *)
Definition lithology (wellLogEntries : list Entry.t) (layout : Layout.t)
    (yScale : Scale.t) : list LithRect.t :=
  map (fun entry =>
         let top := or_zero (Scale.call yScale (entry_start entry)) in
         let bottom := or_zero (Scale.call yScale (entry_end entry)) in
         {| LithRect.x := Layout.x layout;
            LithRect.y := top;
            LithRect.width := Layout.width layout;
            LithRect.height := num_sub bottom top;
            LithRect.entry := entry |})
      wellLogEntries.

Definition getLithology (chartType : ChartType) (s : State) : list LithRect.t :=
  lithology (getWellLogEntries s) (getChartPosition chartType s)
            (getScaleY chartType s).

End LithologySelector.

(** [element] carries a [diameter] object whose [value] is [null]. *)
Definition null_diameter (element : Element.t) : bool :=
  match Element.diameter element with
  | Some d => match Diameter.value d with Some _ => false | None => true end
  | None => false
  end.

(** The coordinates of a drawable element satisfy [P]. *)
Definition on_coordinates (P : Coordinates.t -> Prop) (element : Element.t) : Prop :=
  match elem_coordinates element with
  | Ok c => P c
  | TypeError => False
  end.

(** [proj] of the coordinates of a drawable element. *)
Definition coordinate (proj : Coordinates.t -> Q) (element : Element.t) : Q :=
  match elem_coordinates element with
  | Ok c => proj c
  | TypeError => 0
  end.

(** The diameter value of an element, when it has one, satisfies [P]. *)
Definition on_diameter (P : Q -> Prop) (element : Element.t) : Prop :=
  match Element.diameter element with
  | Some d => match Diameter.value d with Some v => P v | None => True end
  | None => True
  end.

(** Both sides of a part are drawn over the same depths. *)
Definition level_sides (part : Part.t) : Prop :=
  Side.y1 (Part.left part) = Side.y1 (Part.right part) /\
  Side.y2 (Part.left part) = Side.y2 (Part.right part).

(** ** Water-level service state

    Sample arrays are JavaScript objects: a record holds a reference to its
    array, and the arrays live in a heap.  A value read from the store
    aliases the stored one. *)

Definition loc : Type := positive.

Module WaterLevels.
Record t : Type := mk { elevationReference : string; samples : option loc }.
(** The [{}] returned for a site without data. *)
Definition empty : t := mk "" None.
End WaterLevels.

(** Modelled from the spec: the call status of services/state/water-levels
    (not among the sources): one of [undefined | STARTED | DONE | FAILED],
    [undefined] being the absent entry.  In the code a status is one of the
    strings ['STARTED'], ['DONE'], ['FAILED'], all truthy. *)
Inductive CallStatus : Type := STARTED | DONE | FAILED.

(** Modelled from the spec: the mount point of the water-level service, a
    [data] partition and a [status] partition keyed by
    ["{agencyCode}:{siteId}"]. *)
Module Service.
Record t : Type := mk {
  data : gmap string WaterLevels.t;
  status : gmap string CallStatus
}.
Definition empty : t := mk ∅ ∅.
End Service.

Definition siteKey (agencyCode siteId : string) : string :=
  agencyCode +:+ ":" +:+ siteId.

(** Modelled from the spec: [getStatus] returns the current status or
    [undefined] if never attempted. *)
Definition getWaterLevelStatus (agencyCode siteId : string) (st : Service.t)
    : option CallStatus :=
  Service.status st !! siteKey agencyCode siteId.

(** Modelled from the spec: [getRecords] returns the stored record, or the
    empty-object sentinel if absent. *)
Definition getSiteWaterLevels (agencyCode siteId : string) (st : Service.t)
    : WaterLevels.t :=
  default WaterLevels.empty (Service.data st !! siteKey agencyCode siteId).

(** The two actions of the service, with the payloads the test suite
    expects. *)
Inductive Action : Type :=
| WATER_LEVELS_SET (agencyCode siteId : string) (waterLevels : WaterLevels.t)
| WATER_LEVELS_CALL_STATUS (agencyCode siteId : string) (status : CallStatus).

(** Modelled from the spec: the two setters; [setRecords] replaces the
    record of the key, [setStatus] sets its status. *)
Definition reducer (st : Service.t) (a : Action) : Service.t :=
  match a with
  | WATER_LEVELS_SET agencyCode siteId waterLevels =>
      Service.mk (<[siteKey agencyCode siteId := waterLevels]> (Service.data st))
                 (Service.status st)
  | WATER_LEVELS_CALL_STATUS agencyCode siteId status =>
      Service.mk (Service.data st)
                 (<[siteKey agencyCode siteId := status]> (Service.status st))
  end.

(** How the request of a retrieval settles. *)
Inductive Response : Type :=
| Response200 (parsed : WaterLevels.t)
| ResponseFailed.

(** Modelled from the spec: [retrieve] of the Retrieval Orchestrator
    (services/state/water-levels is not among the sources).  The result is
    the sequence of actions dispatched, in order: nothing when the status
    is already STARTED or DONE; otherwise STARTED, then on success the
    records followed by DONE, on failure FAILED. *)
Definition retrieveWaterLevels (agencyCode siteId : string)
    (respond : Response) (st : Service.t) : list Action :=
  match getWaterLevelStatus agencyCode siteId st with
  | Some STARTED | Some DONE => []
  | Some FAILED | None =>
      WATER_LEVELS_CALL_STATUS agencyCode siteId STARTED ::
      match respond with
      | Response200 parsed =>
          [ WATER_LEVELS_SET agencyCode siteId parsed;
            WATER_LEVELS_CALL_STATUS agencyCode siteId DONE ]
      | ResponseFailed =>
          [ WATER_LEVELS_CALL_STATUS agencyCode siteId FAILED ]
      end
  end.

(** The states an observer sees: the state after each dispatched action. *)
Fixpoint observe (st : Service.t) (actions : list Action) : list Service.t :=
  match actions with
  | [] => []
  | a :: rest => reducer st a :: observe (reducer st a) rest
  end.

(** ** median-water-level-table/index.js *)

(** What the component dispatches to the store. *)
Inductive Thunk : Type :=
| retrieveMedianWaterLevels (agencyCode siteId : string).

(** The gate at the head of the component:
    [if (!getWaterLevelStatus(agencyCode, siteId)(store.getState()))
       store.dispatch(retrieveMedianWaterLevels(agencyCode, siteId))]. *)
Definition component_dispatch (agencyCode siteId : string) (st : Service.t)
    : list Thunk :=
  match getWaterLevelStatus agencyCode siteId st with
  | Some _ => []
  | None => [retrieveMedianWaterLevels agencyCode siteId]
  end.

Section MedianTable.
Context {Sample : Type}.

(** [arr.reverse()]: reverses the array in place and returns the same
    reference. *)
Definition Array_reverse (h : gmap loc (list Sample)) (l : loc)
    : gmap loc (list Sample) :=
  match h !! l with
  | Some arr => <[l := reverse arr]> h
  | None => h
  end.

(** [drawTableBody(table, waterLevels)]: returns the heap after the call
    and the values handed to [new List(...)].  With no [samples] the array
    is a fresh [[]], which nothing else references. *)
Definition drawTableBody (h : gmap loc (list Sample)) (waterLevels : WaterLevels.t)
    : gmap loc (list Sample) * list Sample :=
  match WaterLevels.samples waterLevels with
  | Some l =>
      let h' := Array_reverse h l in
      (h', default [] (h' !! l))
  | None => (h, [])
  end.

(** The callback linked to the store: draws when the table is rendered. *)
Definition linked (h : gmap loc (list Sample)) (isRendered : bool)
    (waterLevels : WaterLevels.t) : gmap loc (list Sample) * list Sample :=
  if isRendered then drawTableBody h waterLevels else (h, []).

(** The samples sequence of a stored record. *)
Definition stored_samples (h : gmap loc (list Sample)) (st : Service.t)
    (agencyCode siteId : string) : list Sample :=
  match WaterLevels.samples (getSiteWaterLevels agencyCode siteId st) with
  | Some l => default [] (h !! l)
  | None => []
  end.

End MedianTable.

(** ** An instance of the imports, to run the selectors on examples *)

(** A linear scale through [(d0, r0)] and [(d1, r1)]. *)
Definition linear (domain range : num * num) : Scale.t :=
  {| Scale.call := fun v =>
       num_add (fst range)
         (num_mul (num_div (num_sub v (fst domain))
                           (num_sub (snd domain) (fst domain)))
                  (num_sub (snd range) (fst range)));
     Scale.range := range |}.

Definition identity_scale : Scale.t :=
  {| Scale.call := fun v => v; Scale.range := (Fin 0, Fin 100) |}.

Module Example.
Record State : Type := mk {
  wellLogs : gmap string WellLog.t;
  siteID : string;
  cursor : option Datum.t
}.
End Example.

#[export] Instance example_imports : Imports Example.State := {
  getWellLogs := Example.wellLogs;
  getCurrentSiteID := Example.siteID;
  getCursorDatum := Example.cursor;
  getChartPosition := fun _ _ => {| Layout.x := Fin 0; Layout.width := Fin 100 |};
  getScaleX := fun _ _ => identity_scale;
  getScaleY := fun _ _ => identity_scale;
  scaleLinear := linear;
  capitalize := fun s => s;
  num_to_string := fun q => pretty (Qnum q) +:+ "/" +:+ pretty (Zpos (Qden q))
}.


Definition coords (a b : Q) : option Position.t :=
  Some {| Position.coordinates := Some {| Coordinates.start := a; Coordinates.end_ := b |};
          Position.unit := "ft" |}.

Definition diam (v : option Q) : option Diameter.t :=
  Some {| Diameter.value := v; Diameter.unit := "in" |}.

Definition casing (a b : Q) (d : option Diameter.t) : Element.t :=
  {| Element.position := coords a b; Element.diameter := d; Element.type := "casing" |}.

Definition entry (a b : Q) : Entry.t :=
  {| Entry.shape := {| Shape.coordinates :=
       {| Coordinates.start := a; Coordinates.end_ := b |} |} |}.

Definition example_state (w : WellLog.t) : Example.State :=
  {| Example.wellLogs := {[ "USGS:430406089232901" := w ]};
     Example.siteID := "USGS:430406089232901";
     Example.cursor := Some {| Datum.value := Fin 3 |} |}.

(** Elements whose radii are [2, 0, 0, 5]. *)
Definition radii_2005 : list Element.t :=
  [ casing 0 10 (diam (Some 4%Q)); casing 10 20 (diam (Some 0%Q));
    casing 20 30 (diam None); casing 30 40 (diam (Some 10%Q)) ].

(** Elements whose [(end, radius)] pairs are [(10,2), (10,5), (5,3)]. *)
Definition pairs_10_10_5 : list Element.t :=
  [ casing 0 10 (diam (Some 4%Q)); casing 0 10 (diam (Some 10%Q));
    casing 0 5 (diam (Some 6%Q)) ].

(** A drawable element without a [diameter] field. *)
Definition no_diameter : Element.t := casing 0 10 None.

(** An element without [position]: not drawable. *)
Definition no_position : Element.t :=
  {| Element.position := None; Element.diameter := diam (Some 4%Q);
     Element.type := "screen" |}.

(** The store of the service test suite: site [USGS:12345678] with samples
    [{value: 1}, {value: 2}], the array living at location [1]. *)
Definition example_heap : gmap loc (list Z) := {[ 1%positive := [1; 2] ]}.

Definition example_service : Service.t :=
  {| Service.data :=
       {[ "USGS:12345678" :=
            {| WaterLevels.elevationReference := "111.3";
               WaterLevels.samples := Some 1%positive |} ]};
     Service.status := {[ "USGS:12345678" := DONE ]} |}.

(** A state whose current site has no well log. *)
Definition unknown_site_state : Example.State :=
  {| Example.wellLogs := {[ "USGS:430406089232901" := WellLog.mk None (Some radii_2005) ]};
     Example.siteID := "USGS:12345678";
     Example.cursor := None |}.

(** A bare part ending at depth [y] with radius [r]. *)
Definition bare_part (y r : Q) : Part.t :=
  {| Part.type := "casing"; Part.radius := Fin r; Part.title := "";
     Part.thickness := Fin 0;
     Part.left := {| Side.x := None; Side.y1 := Fin 0; Side.y2 := Fin y |};
     Part.right := {| Side.x := None; Side.y1 := Fin 0; Side.y2 := Fin y |} |}.

(** Parts already in drawing order: deeper first, wider first. *)
Definition ordered_parts : list Part.t :=
  [bare_part 20 2; bare_part 10 5; bare_part 10 2; bare_part 5 3].

(** Drawable elements without a usable diameter: [null] and [0]. *)
Definition no_diameter_values : list Element.t :=
  [ casing 0 10 (diam None); casing 10 20 (diam (Some 0%Q)) ].

(** A well log without entries whose construction starts below the
    surface. *)
Definition deep_construction : WellLog.t :=
  WellLog.mk None (Some [casing 5 10 (diam (Some 4%Q))]).

(** * Facts about numbers *)

Lemma Qlt_bool_iff (a b : Q) : Qlt_bool a b = true <-> (a < b)%Q.
Proof.
  unfold Qlt_bool. rewrite negb_true_iff, <- not_true_iff_false, Qle_bool_iff.
  split; [apply Qnot_le_lt | apply Qlt_not_le].
Qed.

Lemma Qlt_bool_false_iff (a b : Q) : Qlt_bool a b = false <-> (b <= a)%Q.
Proof.
  unfold Qlt_bool. rewrite negb_false_iff. apply Qle_bool_iff.
Qed.

Lemma Qeq_bool_true_iff (a b : Q) : Qeq_bool a b = true <-> (a == b)%Q.
Proof. apply Qeq_bool_iff. Qed.

Lemma Qeq_bool_false_iff (a b : Q) : Qeq_bool a b = false <-> ~ (a == b)%Q.
Proof. rewrite <- not_true_iff_false, Qeq_bool_iff. reflexivity. Qed.

(** Turns the boolean comparisons of rationals in the context and the goal
    into propositions. *)
Ltac Qbool :=
  repeat match goal with
  | H : Qlt_bool _ _ = true |- _ => apply Qlt_bool_iff in H
  | H : Qlt_bool _ _ = false |- _ => apply Qlt_bool_false_iff in H
  | H : Qeq_bool _ _ = true |- _ => apply Qeq_bool_true_iff in H
  | H : Qeq_bool _ _ = false |- _ => apply Qeq_bool_false_iff in H
  | |- Qlt_bool _ _ = true => apply Qlt_bool_iff
  | |- Qlt_bool _ _ = false => apply Qlt_bool_false_iff
  | |- Qeq_bool _ _ = true => apply Qeq_bool_true_iff
  | |- Qeq_bool _ _ = false => apply Qeq_bool_false_iff
  end.

Section MinMax.
Context {A : Type} (f : A -> Q).

Lemma foldl_min_fin (es : list A) (a : Q) :
  exists lo, foldl min_step (Fin a) (map (fun e => Fin (f e)) es) = Fin lo /\
    (lo = a \/ Exists (fun e => f e = lo) es) /\
    (lo <= a)%Q /\ Forall (fun e => (lo <= f e)%Q) es.
Proof.
  revert a. induction es as [|e es IH]; intros a; simpl.
  - exists a. split; [reflexivity|]. split; [by left|]. split; [lra | constructor].
  - destruct (Qlt_bool (f e) a) eqn:Hlt; Qbool.
    + destruct (IH (f e)) as (lo & -> & Hin & Hle & Hall).
      exists lo. split; [reflexivity|]. split.
      * right. destruct Hin as [->|Hin]; [by left | by right].
      * split; [lra|]. constructor; assumption.
    + destruct (IH a) as (lo & -> & Hin & Hle & Hall).
      exists lo. split; [reflexivity|]. split.
      * destruct Hin as [->|Hin]; [by left | right; by right].
      * split; [lra|]. constructor; [lra | assumption].
Qed.

Lemma foldl_max_fin (es : list A) (a : Q) :
  exists hi, foldl max_step (Fin a) (map (fun e => Fin (f e)) es) = Fin hi /\
    (hi = a \/ Exists (fun e => f e = hi) es) /\
    (a <= hi)%Q /\ Forall (fun e => (f e <= hi)%Q) es.
Proof.
  revert a. induction es as [|e es IH]; intros a; simpl.
  - exists a. split; [reflexivity|]. split; [by left|]. split; [lra | constructor].
  - destruct (Qlt_bool a (f e)) eqn:Hlt; Qbool.
    + destruct (IH (f e)) as (hi & -> & Hin & Hle & Hall).
      exists hi. split; [reflexivity|]. split.
      * right. destruct Hin as [->|Hin]; [by left | by right].
      * split; [lra|]. constructor; assumption.
    + destruct (IH a) as (hi & -> & Hin & Hle & Hall).
      exists hi. split; [reflexivity|]. split.
      * destruct Hin as [->|Hin]; [by left | right; by right].
      * split; [lra|]. constructor; [lra | assumption].
Qed.

(** [Math.min] of a non-empty list of finite numbers is its least member. *)
Lemma Math_min_fin (e : A) (es : list A) :
  exists lo, Math_min (map (fun e => Fin (f e)) (e :: es)) = Fin lo /\
    Exists (fun e => f e = lo) (e :: es) /\
    Forall (fun e => (lo <= f e)%Q) (e :: es).
Proof.
  unfold Math_min. simpl.
  destruct (foldl_min_fin es (f e)) as (lo & Heq & Hin & Hle & Hall).
  exists lo. split; [exact Heq|]. split.
  - destruct Hin as [->|Hin]; [by left | by right].
  - constructor; assumption.
Qed.

(** [Math.max] of a non-empty list of finite numbers is its greatest
    member. *)
Lemma Math_max_fin (e : A) (es : list A) :
  exists hi, Math_max (map (fun e => Fin (f e)) (e :: es)) = Fin hi /\
    Exists (fun e => f e = hi) (e :: es) /\
    Forall (fun e => (f e <= hi)%Q) (e :: es).
Proof.
  unfold Math_max. simpl.
  destruct (foldl_max_fin es (f e)) as (hi & Heq & Hin & Hle & Hall).
  exists hi. split; [exact Heq|]. split.
  - destruct Hin as [->|Hin]; [by left | by right].
  - constructor; assumption.
Qed.

End MinMax.

(** * Facts about fallible maps *)


Lemma rmap_Ok_inv {A B} (f : A -> result B) (xs : list A) (ys : list B) :
  rmap f xs = Ok ys -> Forall2 (fun x y => f x = Ok y) xs ys.
Proof.
  revert ys. induction xs as [|x xs IH]; simpl; intros ys Hys.
  - injection Hys as <-. constructor.
  - destruct (f x) as [y|] eqn:Hfx; [|discriminate]. simpl in Hys.
    destruct (rmap f xs) as [ys'|]; [|discriminate]. simpl in Hys.
    injection Hys as <-. constructor; [assumption | by apply IH].
Qed.

Lemma rmap_is_Ok {A B} (f : A -> result B) (xs : list A) :
  is_Ok (rmap f xs) = forallb (fun x => is_Ok (f x)) xs.
Proof.
  induction xs as [|x xs IH]; simpl; [reflexivity|].
  destruct (f x); simpl; [|reflexivity].
  rewrite <- IH. destruct (rmap f xs); reflexivity.
Qed.

(** * Facts about well-log.js *)

Section WellLogFacts.
Context {State : Type} `{Imports State}.

Lemma isDrawable_coordinates (e : Element.t) :
  isDrawable e = true -> is_Ok (elem_coordinates e) = true.
Proof.
  unfold isDrawable, elem_coordinates.
  destruct (Element.position e) as [p|]; simpl; [|discriminate].
  destruct (Position.coordinates p); simpl; [reflexivity | discriminate].
Qed.

Lemma getDrawableElements_drawable (s : State) :
  Forall (fun e => isDrawable e = true) (getDrawableElements s).
Proof.
  unfold getDrawableElements. apply List.Forall_forall.
  intros e He. apply List.filter_In in He. tauto.
Qed.


(** C6. [getWellLogEntriesExtentY] returns [[0, 0]] for an empty entry
    list; otherwise its first component is the least [start] of the entries
    and its second the greatest [end]: each is attained by an entry and
    bounds all of them.  On [[{start:5,end:10},{start:2,end:20}]] it
    returns [[2, 20]]. *)
Theorem getWellLogEntriesExtentY_min_max (s : State) :
  match getWellLogEntries s with
  | [] => getWellLogEntriesExtentY s = (Fin 0, Fin 0)
  | e :: es =>
      exists lo hi, getWellLogEntriesExtentY s = (Fin lo, Fin hi) /\
        Exists (fun e => Coordinates.start (Shape.coordinates (Entry.shape e)) = lo) (e :: es) /\
        Forall (fun e => (lo <= Coordinates.start (Shape.coordinates (Entry.shape e)))%Q) (e :: es) /\
        Exists (fun e => Coordinates.end_ (Shape.coordinates (Entry.shape e)) = hi) (e :: es) /\
        Forall (fun e => (Coordinates.end_ (Shape.coordinates (Entry.shape e)) <= hi)%Q) (e :: es)
  end /\
  getWellLogEntriesExtentY
    (example_state (WellLog.mk (Some [entry 5 10; entry 2 20]) None)) = (Fin 2, Fin 20).
Proof.
  split; [|reflexivity].
  unfold getWellLogEntriesExtentY.
  destruct (getWellLogEntries s) as [|e es]; [reflexivity|].
  unfold entriesExtentY. simpl length. cbv iota beta.
  change (S (length es) =? 0)%nat with false. cbv iota.
  destruct (Math_min_fin (fun e => Coordinates.start (Shape.coordinates (Entry.shape e))) e es)
    as (lo & Hlo & Hlo_in & Hlo_le).
  destruct (Math_max_fin (fun e => Coordinates.end_ (Shape.coordinates (Entry.shape e))) e es)
    as (hi & Hhi & Hhi_in & Hhi_le).
  exists lo, hi. unfold entry_start, entry_end.
  rewrite Hlo, Hhi. repeat split; assumption.
Qed.

(** C7. When the current well log has no drawable construction element,
    [getConstructionExtentY] returns exactly [[Infinity, -Infinity]]. *)
Theorem getConstructionExtentY_no_drawable (s : State) :
  getDrawableElements s = [] ->
  getConstructionExtentY s = Ok (PInf, NInf).
Proof.
  unfold getConstructionExtentY. intros ->. reflexivity.
Qed.

Lemma entriesExtentY_finite (entries : list Entry.t) :
  exists lo hi, entriesExtentY entries = (Fin lo, Fin hi).
Proof.
  destruct entries as [|e es]; [by exists 0%Q, 0%Q|].
  unfold entriesExtentY. change (length (e :: es) =? 0)%nat with false. cbv iota.
  destruct (Math_min_fin (fun e => Coordinates.start (Shape.coordinates (Entry.shape e))) e es)
    as (lo & Hlo & _).
  destruct (Math_max_fin (fun e => Coordinates.end_ (Shape.coordinates (Entry.shape e))) e es)
    as (hi & Hhi & _).
  exists lo, hi. unfold entry_start, entry_end. by rewrite Hlo, Hhi.
Qed.

(** [[Infinity, -Infinity]] is neutral for the min/max combine. *)
Lemma wellLogExtentY_neutral (extent : num * num) :
  wellLogExtentY extent (PInf, NInf) = extent.
Proof.
  destruct extent as [[a| | |] [b| | |]]; reflexivity.
Qed.

(** C10. In a state whose current well log has no drawable construction
    element, [getWellLogExtentY] equals [getWellLogEntriesExtentY]: the
    construction extent [[Infinity, -Infinity]] is neutral for the min/max
    combine.  Both components are then finite, and the extent is [[0, 0]]
    when the entry list is empty as well. *)
Theorem getWellLogExtentY_no_drawable (s : State) :
  getDrawableElements s = [] ->
  getWellLogExtentY s = Ok (getWellLogEntriesExtentY s) /\
  isFinite (fst (getWellLogEntriesExtentY s)) = true /\
  isFinite (snd (getWellLogEntriesExtentY s)) = true /\
  (getWellLogEntries s = [] -> getWellLogExtentY s = Ok (Fin 0, Fin 0)).
Proof.
  intros Hd. unfold getWellLogExtentY, getConstructionExtentY.
  rewrite Hd. change (constructionExtentY []) with (Ok (PInf, NInf)).
  unfold rbind.
  rewrite wellLogExtentY_neutral. unfold getWellLogEntriesExtentY.
  destruct (entriesExtentY_finite (getWellLogEntries s)) as (lo & hi & Heq).
  split; [reflexivity|]. rewrite Heq. simpl.
  split; [reflexivity|]. split; [reflexivity|].
  intros Hnil. rewrite Hnil in Heq. rewrite <- Heq. reflexivity.
Qed.




End WellLogFacts.

(** * The radius-inference loop *)

Section RadiusInference.
Context (xScale : Scale.t).

Lemma find_reverse_last {A} (P : A -> bool) (l : list A) :
  List.find P (reverse l) = last (List.filter P l).
Proof.
  induction l as [|x l IH] using rev_ind; [reflexivity|].
  rewrite reverse_snoc, List.filter_app. simpl.
  destruct (P x); simpl.
  - by rewrite last_snoc.
  - by rewrite app_nil_r.
Qed.

Lemma find_head_filter {A} (P : A -> bool) (l : list A) :
  List.find P l = head (List.filter P l).
Proof.
  induction l as [|x l IH]; simpl; [reflexivity|]. by destruct (P x).
Qed.

Lemma find_radius (l : list Part.t) :
  Part.radius <$> List.find has_radius l = List.find truthy (map Part.radius l).
Proof.
  induction l as [|p l IH]; simpl; [reflexivity|].
  unfold has_radius at 1. by destruct (truthy (Part.radius p)).
Qed.

Lemma nearest_before_find (parts : list Part.t) (index : nat) :
  nearest_before (map Part.radius parts) index =
  Part.radius <$> List.find has_radius (reverse (take index parts)).
Proof.
  unfold nearest_before.
  rewrite <- find_reverse_last, find_radius.
  by rewrite <- fmap_take, <- fmap_reverse.
Qed.

Lemma nearest_after_find (parts : list Part.t) (index : nat) :
  nearest_after (map Part.radius parts) index =
  Part.radius <$> List.find has_radius (drop (S index) parts).
Proof.
  unfold nearest_after.
  rewrite <- find_head_filter, find_radius. by rewrite <- fmap_drop.
Qed.

Lemma find_finite (parts l : list Part.t) (p : Part.t) :
  Forall finite_radius parts -> l ⊆ parts ->
  List.find has_radius l = Some p ->
  exists q, Part.radius p = Fin q /\ truthy (Fin q) = true.
Proof.
  intros Hfin Hsub Hfind. apply List.find_some in Hfind as [Hin Hrad].
  apply list_elem_of_In, Hsub in Hin.
  rewrite Forall_forall in Hfin. specialize (Hfin p Hin).
  unfold finite_radius in Hfin. unfold has_radius in Hrad.
  destruct (Part.radius p) as [q| | |]; try discriminate. eauto.
Qed.

Lemma take_subseteq {A} (l : list A) (n : nat) : reverse (take n l) ⊆ l.
Proof.
  intros x Hx. rewrite elem_of_reverse in Hx. by eapply subseteq_take.
Qed.

Lemma drop_subseteq {A} (l : list A) (n : nat) : drop n l ⊆ l.
Proof. apply subseteq_drop. Qed.

(** The minimum the loop computes at [index], and the test it makes on it. *)
Lemma neighbors_min (parts : list Part.t) (index : nat) :
  Forall finite_radius parts ->
  let min := Math_min (neighbor_radii (neighbors parts index)) in
  if truthy min && isFinite min
  then min = inferred_radius (map Part.radius parts) index
  else Fin 1 = inferred_radius (map Part.radius parts) index.
Proof.
  intros Hfin. unfold inferred_radius.
  rewrite nearest_before_find, nearest_after_find. unfold neighbors.
  destruct (List.find has_radius (reverse (take index parts))) as [a|] eqn:Ha;
    destruct (List.find has_radius (drop (S index) parts)) as [b|] eqn:Hb; simpl.
  - destruct (find_finite parts _ a Hfin (take_subseteq parts index) Ha) as (qa & Hqa & Hta).
    destruct (find_finite parts _ b Hfin (drop_subseteq parts (S index)) Hb) as (qb & Hqb & Htb).
    unfold has_radius. rewrite Hqa, Hqb, Hta, Htb. simpl. rewrite Hqa, Hqb.
    unfold Math_min, smaller. simpl.
    destruct (Qlt_bool qb qa); simpl in *; [by rewrite Htb | by rewrite Hta].
  - destruct (find_finite parts _ a Hfin (take_subseteq parts index) Ha) as (qa & Hqa & Hta).
    unfold has_radius. rewrite Hqa, Hta. simpl. rewrite Hqa.
    unfold Math_min. simpl in *. by rewrite Hta.
  - destruct (find_finite parts _ b Hfin (drop_subseteq parts (S index)) Hb) as (qb & Hqb & Htb).
    unfold has_radius. rewrite Hqb, Htb. simpl. rewrite Hqb.
    unfold Math_min. simpl in *. by rewrite Htb.
  - reflexivity.
Qed.

Lemma fill_step_insert (parts : list Part.t) (index : nat) (part : Part.t) :
  Forall finite_radius parts ->
  parts !! index = Some part ->
  fill_step xScale parts index =
  <[index := resolved xScale (map Part.radius parts) index part]> parts.
Proof.
  intros Hfin Hpart. unfold fill_step, resolved. rewrite Hpart.
  destruct (has_radius part); [by rewrite list_insert_id|].
  pose proof (neighbors_min parts index Hfin) as Hmin. cbv zeta in Hmin.
  destruct (truthy _ && isFinite _); by rewrite Hmin.
Qed.

Lemma resolved_radius (radii : list num) (index : nat) (part : Part.t) :
  Part.radius (resolved xScale radii index part) = Part.radius part.
Proof. unfold resolved. by destruct (has_radius part). Qed.

Lemma fill_step_radii (parts : list Part.t) (index : nat) :
  Forall finite_radius parts ->
  map Part.radius (fill_step xScale parts index) = map Part.radius parts.
Proof.
  intros Hfin. destruct (parts !! index) as [part|] eqn:Hpart.
  - rewrite (fill_step_insert parts index part Hfin Hpart).
    rewrite list_fmap_insert, resolved_radius.
    apply list_insert_id. by rewrite list_lookup_fmap, Hpart.
  - unfold fill_step. by rewrite Hpart.
Qed.

Lemma finite_radius_radii (parts parts' : list Part.t) :
  map Part.radius parts' = map Part.radius parts ->
  Forall finite_radius parts -> Forall finite_radius parts'.
Proof.
  intros Heq Hfin.
  assert (Hr : Forall (fun r => isFinite r = true) (Part.radius <$> parts')).
  { change (Part.radius <$> parts') with (map Part.radius parts').
    rewrite Heq. by apply Forall_fmap. }
  by apply Forall_fmap in Hr.
Qed.

(** The loop, run over the indices [k, k + n). *)
Lemma foldl_fill_step (n k : nat) (parts : list Part.t) :
  Forall finite_radius parts ->
  foldl (fill_step xScale) parts (seq k n) =
  imap (fun j p => if decide (k <= j < k + n)%nat
                   then resolved xScale (map Part.radius parts) j p else p) parts.
Proof.
  revert k parts. induction n as [|n IH]; intros k parts Hfin.
  - simpl. apply list_eq. intros j. rewrite list_lookup_imap.
    destruct (parts !! j); simpl; [|reflexivity]. case_decide; [lia | reflexivity].
  - simpl. rewrite IH by (eapply finite_radius_radii; [by apply fill_step_radii | done]).
    rewrite fill_step_radii by done.
    apply list_eq. intros j. rewrite !list_lookup_imap.
    destruct (parts !! k) as [part|] eqn:Hk.
    + rewrite (fill_step_insert parts k part Hfin Hk).
      destruct (decide (j = k)) as [->|Hne].
      * rewrite list_lookup_insert_eq by (by eapply lookup_lt_Some).
        rewrite Hk. simpl. rewrite decide_False by lia. by rewrite decide_True by lia.
      * rewrite list_lookup_insert_ne by done.
        destruct (parts !! j); simpl; [|reflexivity].
        do 2 case_decide; (reflexivity || lia).
    + unfold fill_step. rewrite Hk.
      destruct (parts !! j) eqn:Hj; simpl; [|reflexivity].
      assert (j <> k) by congruence.
      do 2 case_decide; (reflexivity || lia).
Qed.

Lemma fillRadii_imap (parts : list Part.t) :
  Forall finite_radius parts ->
  fillRadii xScale parts = imap (resolved xScale (map Part.radius parts)) parts.
Proof.
  intros Hfin. unfold fillRadii. rewrite foldl_fill_step by done.
  apply list_eq. intros j. rewrite !list_lookup_imap.
  destruct (parts !! j) eqn:Hj; simpl; [|reflexivity].
  apply lookup_lt_Some in Hj. by rewrite decide_True by lia.
Qed.

End RadiusInference.

(** * The order on numbers *)

Lemma num_lt_asym (a b : num) : num_lt a b = true -> num_lt b a = false.
Proof.
  destruct a as [x| | |], b as [y| | |]; simpl; try done.
  intros Hlt. Qbool. lra.
Qed.

Lemma num_lt_cotrans (a b c : num) :
  num_isNaN b = false -> num_lt a c = true ->
  num_lt a b = true \/ num_lt b c = true.
Proof.
  destruct a as [x| | |], b as [y| | |], c as [z| | |]; simpl; try done; auto.
  intros _ Hlt. Qbool.
  destruct (Qlt_le_dec x y) as [Hxy|Hxy].
  - left. Qbool. done.
  - right. Qbool. lra.
Qed.

Lemma num_lt_false_trans (a b c : num) :
  num_isNaN b = false ->
  num_lt a b = false -> num_lt b c = false -> num_lt a c = false.
Proof.
  intros Hb Hab Hbc. destruct (num_lt a c) eqn:Hac; [|reflexivity].
  destruct (num_lt_cotrans a b c Hb Hac); congruence.
Qed.

Lemma num_trichotomy (a b : num) :
  num_isNaN a = false -> num_isNaN b = false ->
  num_lt a b = false -> num_lt b a = false -> num_eqb a b = true.
Proof.
  destruct a as [x| | |], b as [y| | |]; simpl; try done.
  intros _ _ H1 H2. Qbool. lra.
Qed.

Lemma num_eqb_lt (a b c : num) :
  num_eqb a b = true -> num_eqb a c = true -> num_lt b c = false.
Proof.
  destruct a as [x| | |], b as [y| | |], c as [z| | |]; simpl; try done.
  intros H1 H2. Qbool. lra.
Qed.

(** * The stable sort *)

Section StableSort.
Context {A : Type} (cmp : A -> A -> Z) (good : A -> Prop).

Hypothesis cmp_total : forall a b, keeps cmp a b \/ keeps cmp b a.
Hypothesis cmp_trans : forall a b c,
  good a -> good b -> good c -> keeps cmp a b -> keeps cmp b c -> keeps cmp a c.

Lemma sort_insert_Permutation (a : A) (l : list A) :
  sort_insert cmp a l ≡ₚ a :: l.
Proof.
  induction l as [|b l IH]; simpl; [reflexivity|].
  destruct (0 <? cmp a b); [|reflexivity].
  rewrite IH. apply Permutation_swap.
Qed.

Lemma Array_sort_Permutation (l : list A) : Array_sort cmp l ≡ₚ l.
Proof.
  induction l as [|a l IH]; simpl; [reflexivity|].
  rewrite sort_insert_Permutation. by rewrite IH.
Qed.

Lemma sort_insert_sorted (a : A) (l : list A) :
  good a -> Forall good l ->
  StronglySorted (keeps cmp) l -> StronglySorted (keeps cmp) (sort_insert cmp a l).
Proof using cmp_total cmp_trans.
  intros Hga Hgood Hs. induction Hs as [|b l Hs IH Hb]; simpl.
  - repeat constructor.
  - apply Forall_cons in Hgood as [Hgb Hgl].
    destruct (0 <? cmp a b) eqn:Hab.
    + apply Z.ltb_lt in Hab. constructor; [by apply IH|].
      rewrite sort_insert_Permutation. constructor; [|assumption].
      destruct (cmp_total b a) as [Hk|Hk]; [assumption | unfold keeps in Hk; lia].
    + apply Z.ltb_ge in Hab. constructor; [by constructor|].
      constructor; [exact Hab|].
      rewrite Forall_forall in Hb, Hgl. apply Forall_forall. intros c Hc.
      apply (cmp_trans a b c); [exact Hga | exact Hgb | by apply Hgl | exact Hab | by apply Hb].
Qed.

Lemma Array_sort_sorted (l : list A) :
  Forall good l -> StronglySorted (keeps cmp) (Array_sort cmp l).
Proof using cmp_total cmp_trans.
  induction 1 as [|a l Ha Hl IH]; simpl; [constructor|].
  apply sort_insert_sorted; [assumption | | assumption].
  by rewrite Array_sort_Permutation.
Qed.

(** Stability: members of one class of [eqv] keep their order. *)
Context (eqv : A -> A -> bool).
Hypothesis eqv_keeps : forall k a b,
  eqv k a = true -> eqv k b = true -> keeps cmp a b.

Lemma sort_insert_filter (k a : A) (l : list A) :
  List.filter (eqv k) (sort_insert cmp a l) =
  if eqv k a then a :: List.filter (eqv k) l else List.filter (eqv k) l.
Proof using eqv_keeps.
  induction l as [|b l IH]; simpl; [reflexivity|].
  destruct (0 <? cmp a b) eqn:Hab; simpl.
  - rewrite IH. destruct (eqv k a) eqn:Ha, (eqv k b) eqn:Hb; try reflexivity.
    apply Z.ltb_lt in Hab. pose proof (eqv_keeps k a b Ha Hb) as Hk.
    unfold keeps in Hk. lia.
  - reflexivity.
Qed.

Lemma Array_sort_stable (k : A) (l : list A) :
  List.filter (eqv k) (Array_sort cmp l) = List.filter (eqv k) l.
Proof using eqv_keeps.
  induction l as [|a l IH]; simpl; [reflexivity|].
  rewrite sort_insert_filter, IH. reflexivity.
Qed.

End StableSort.

(** * The parts of [getConstructionElements] *)

Section Parts.
Context `{Imports State} (xScale yScale : Scale.t).

Lemma makePart_Ok (e : Element.t) (p : Part.t) :
  makePart xScale yScale e = Ok p ->
  exists d c,
    Element.diameter e = Some d /\ elem_coordinates e = Ok c /\
    Part.radius p = num_div (to_num (Diameter.value d)) (Fin 2) /\
    part_xs p = (if has_radius p then xs_at xScale (Part.radius p) else (None, None)) /\
    Side.y2 (Part.left p) = Scale.call yScale (Fin (Coordinates.end_ c)).
Proof.
  unfold makePart, elem_coordinates.
  destruct (Element.position e) as [pos|]; simpl; [|discriminate].
  destruct (Element.diameter e) as [d|]; simpl; [|discriminate].
  destruct (Position.coordinates pos) as [c|]; simpl; [|discriminate].
  intros [= <-]. exists d, c. unfold part_xs, has_radius, xs_at. simpl.
  repeat split; try reflexivity.
  by destruct (truthy _).
Qed.

Lemma makePart_is_Ok (e : Element.t) :
  is_Ok (makePart xScale yScale e) = isDrawable e && has_diameter e.
Proof.
  unfold makePart, isDrawable, has_diameter.
  destruct (Element.position e) as [pos|]; simpl; [|reflexivity].
  destruct (Element.diameter e) as [d|]; simpl.
  - by destruct (Position.coordinates pos).
  - by destruct (Position.coordinates pos).
Qed.

Lemma half_finite (v : option Q) : isFinite (num_div (to_num v) (Fin 2)) = true.
Proof. by destruct v. Qed.

Lemma makePart_finite (elements : list Element.t) (parts : list Part.t) :
  rmap (makePart xScale yScale) elements = Ok parts ->
  Forall finite_radius parts.
Proof.
  intros Hparts. apply rmap_Ok_inv in Hparts.
  induction Hparts as [|e p es ps Hp _ IH]; constructor; [|assumption].
  apply makePart_Ok in Hp as (d & c & _ & _ & Hr & _).
  unfold finite_radius. rewrite Hr. apply half_finite.
Qed.

Lemma makePart_xs (elements : list Element.t) (parts : list Part.t) :
  rmap (makePart xScale yScale) elements = Ok parts ->
  Forall (fun p => part_xs p =
            if has_radius p then xs_at xScale (Part.radius p) else (None, None)) parts.
Proof.
  intros Hparts. apply rmap_Ok_inv in Hparts.
  induction Hparts as [|e p es ps Hp _ IH]; constructor; [|assumption].
  by apply makePart_Ok in Hp as (d & c & _ & _ & _ & Hx & _).
Qed.

(** C1. After the per-element pass, the radius-inference loop resolves
    every part as the rule says: a part with a truthy radius is left as it
    is; a part with a falsy radius gets its left and right x at minus and
    plus the inferred radius on the radius scale, the inferred radius being
    the smaller of the radii of the nearest preceding and nearest following
    parts with a truthy radius, the only one when one side has none, and
    [1] when both have none.  The radii themselves are unchanged, and every
    part ends with its x-coordinates at minus and plus its effective
    radius. *)
Theorem fillRadii_inference (elements : list Element.t) (parts : list Part.t) :
  rmap (makePart xScale yScale) elements = Ok parts ->
  fillRadii xScale parts = imap (resolved xScale (map Part.radius parts)) parts /\
  map Part.radius (fillRadii xScale parts) = map Part.radius parts /\
  map part_xs (fillRadii xScale parts) =
  map (xs_at xScale) (effective_radii (map Part.radius parts)).
Proof.
  intros Hparts.
  pose proof (makePart_finite elements parts Hparts) as Hfin.
  pose proof (makePart_xs elements parts Hparts) as Hxs.
  rewrite (fillRadii_imap xScale parts Hfin).
  split; [reflexivity|]. split.
  - apply list_eq. intros j.
    rewrite !list_lookup_fmap, list_lookup_imap.
    destruct (parts !! j); simpl; [|reflexivity]. by rewrite resolved_radius.
  - apply list_eq. intros j. unfold effective_radii.
    rewrite !list_lookup_fmap, !list_lookup_imap, list_lookup_fmap.
    destruct (parts !! j) as [p|] eqn:Hj; simpl; [|reflexivity].
    f_equal. rewrite Forall_lookup in Hxs. specialize (Hxs j p Hj).
    unfold resolved. unfold has_radius in *.
    destruct (truthy (Part.radius p)); [exact Hxs | reflexivity].
Qed.

(** ** The comparator *)

Lemma compareParts_keeps (a b : Part.t) :
  keeps compareParts a b <->
  num_lt (Side.y2 (Part.left a)) (Side.y2 (Part.left b)) = false /\
  (num_lt (Side.y2 (Part.left b)) (Side.y2 (Part.left a)) = true \/
   num_lt (Part.radius a) (Part.radius b) = false).
Proof.
  unfold keeps, compareParts, num_gt.
  destruct (num_lt (Side.y2 (Part.left a)) (Side.y2 (Part.left b)));
    destruct (num_lt (Side.y2 (Part.left b)) (Side.y2 (Part.left a)));
    destruct (num_lt (Part.radius a) (Part.radius b));
    destruct (num_lt (Part.radius b) (Part.radius a));
    intuition (try lia; try discriminate).
Qed.

Lemma compareParts_total (a b : Part.t) :
  keeps compareParts a b \/ keeps compareParts b a.
Proof.
  rewrite !compareParts_keeps.
  destruct (num_lt (Side.y2 (Part.left a)) (Side.y2 (Part.left b))) eqn:Hy.
  { right. split; [by apply num_lt_asym | by left]. }
  destruct (num_lt (Side.y2 (Part.left b)) (Side.y2 (Part.left a))) eqn:Hy'.
  { left. split; [reflexivity | by left]. }
  destruct (num_lt (Part.radius a) (Part.radius b)) eqn:Hr.
  - right. split; [reflexivity|]. right. by apply num_lt_asym.
  - left. split; [reflexivity | by right].
Qed.

Lemma compareParts_trans (a b c : Part.t) :
  good a -> good b -> good c ->
  keeps compareParts a b -> keeps compareParts b c -> keeps compareParts a c.
Proof.
  rewrite !compareParts_keeps.
  intros [Hay Har] [Hby Hbr] [Hcy Hcr] [Hab Hab'] [Hbc Hbc'].
  split; [by apply (num_lt_false_trans _ (Side.y2 (Part.left b)))|].
  destruct Hab' as [Hba|Hrab].
  { left. destruct (num_lt_cotrans _ _ _ Hcy Hba); congruence. }
  destruct Hbc' as [Hcb|Hrbc].
  { left. destruct (num_lt_cotrans _ _ _ Hay Hcb); congruence. }
  right. by apply (num_lt_false_trans _ (Part.radius b)).
Qed.

Lemma same_key_keeps (k a b : Part.t) :
  same_key k a = true -> same_key k b = true -> keeps compareParts a b.
Proof.
  unfold same_key. rewrite !andb_true_iff. intros [Hya Hra] [Hyb Hrb].
  apply compareParts_keeps. split.
  - by eapply num_eqb_lt.
  - right. by eapply num_eqb_lt.
Qed.

Lemma keeps_precedes (a b : Part.t) :
  good a -> good b -> keeps compareParts a b -> precedes a b.
Proof.
  intros [Hay Har] [Hby Hbr]. rewrite compareParts_keeps. intros [Hab Hab'].
  unfold precedes, num_gt.
  destruct (num_lt (Side.y2 (Part.left b)) (Side.y2 (Part.left a))) eqn:Hba;
    [by left|].
  right. split; [by apply num_trichotomy|].
  destruct Hab' as [?|Hr]; [discriminate|].
  destruct (num_lt (Part.radius b) (Part.radius a)) eqn:Hr'; [by left|].
  right. by apply num_trichotomy.
Qed.

Lemma StronglySorted_good (l : list Part.t) :
  Forall good l -> StronglySorted (keeps compareParts) l -> StronglySorted precedes l.
Proof.
  intros Hgood Hs. induction Hs as [|a l Hs IH Ha]; [constructor|].
  apply Forall_cons in Hgood as [Hga Hgl]. constructor; [by apply IH|].
  rewrite Forall_forall in Ha, Hgl. apply Forall_forall. intros b Hb.
  apply keeps_precedes; [assumption | by apply Hgl | by apply Ha].
Qed.

Lemma resolved_good (radii : list num) (j : nat) (p : Part.t) :
  good p -> good (resolved xScale radii j p).
Proof. unfold resolved, good. by destruct (has_radius p). Qed.

Lemma makePart_good (elements : list Element.t) (parts : list Part.t) :
  forallb (scaled_end yScale) elements = true ->
  rmap (makePart xScale yScale) elements = Ok parts ->
  Forall good parts.
Proof.
  intros Hends Hparts. apply rmap_Ok_inv in Hparts.
  induction Hparts as [|e p es ps Hp _ IH]; [constructor|].
  simpl in Hends. apply andb_true_iff in Hends as [He Hes].
  constructor; [|by apply IH].
  apply makePart_Ok in Hp as (d & c & _ & Hc & Hr & _ & Hy).
  unfold scaled_end in He. rewrite Hc in He. apply negb_true_iff in He.
  split; [by rewrite Hy|]. rewrite Hr.
  pose proof (half_finite (Diameter.value d)) as Hf.
  by destruct (num_div _ _).
Qed.

(** The combiner of [getConstructionElements]: its result is the parts of
    the inference pass, reordered by the stable sort. *)
Lemma constructionElements_sorted (elements : list Element.t) (sorted : list Part.t) :
  forallb (scaled_end yScale) elements = true ->
  constructionElements elements xScale yScale = Ok sorted ->
  exists parts,
    rmap (makePart xScale yScale) elements = Ok parts /\
    Permutation sorted (fillRadii xScale parts) /\
    StronglySorted precedes sorted /\
    forall k, List.filter (same_key k) sorted =
              List.filter (same_key k) (fillRadii xScale parts).
Proof.
  intros Hends. unfold constructionElements.
  destruct (rmap (makePart xScale yScale) elements) as [parts|] eqn:Hparts;
    simpl; [|discriminate].
  intros [= <-]. exists parts. split; [reflexivity|].
  assert (Hgood : Forall good (fillRadii xScale parts)).
  { rewrite (fillRadii_imap xScale parts (makePart_finite elements parts Hparts)).
    pose proof (makePart_good elements parts Hends Hparts) as Hg.
    rewrite Forall_lookup in Hg. apply Forall_lookup. intros j p Hj.
    apply list_lookup_imap_Some in Hj as (p0 & Hj & ->).
    apply resolved_good. by eapply Hg. }
  split; [apply Array_sort_Permutation|]. split.
  - apply StronglySorted_good.
    + by rewrite Array_sort_Permutation.
    + apply (Array_sort_sorted compareParts good);
        [apply compareParts_total | apply compareParts_trans | assumption].
  - intros k. apply (Array_sort_stable compareParts same_key same_key_keeps).
Qed.

End Parts.

Section SortedElements.
Context `{Imports State}.

(** C4. The list returned by [getConstructionElements] holds the parts of
    the inference pass sorted descending by [left.y2], ties broken by
    descending [radius]; parts with equal [(y2, radius)] keep their
    relative order.  The vertical scale is taken to send no end depth to
    [NaN]. *)
Theorem getConstructionElements_sorted (chartType : ChartType) (s : State)
    (sorted : list Part.t) :
  forallb (scaled_end (getScaleY chartType s)) (getDrawableElements s) = true ->
  getConstructionElements chartType s = Ok sorted ->
  exists xScale parts,
    getRadiusScale chartType s = Ok xScale /\
    rmap (makePart xScale (getScaleY chartType s)) (getDrawableElements s) = Ok parts /\
    Permutation sorted (fillRadii xScale parts) /\
    StronglySorted precedes sorted /\
    forall k, List.filter (same_key k) sorted =
              List.filter (same_key k) (fillRadii xScale parts).
Proof.
  intros Hends. unfold getConstructionElements.
  destruct (getRadiusScale chartType s) as [xScale|]; simpl; [|discriminate].
  intros Hsorted. exists xScale.
  destruct (constructionElements_sorted xScale (getScaleY chartType s)
              (getDrawableElements s) sorted Hends Hsorted) as (parts & Hparts).
  exists parts. split; [reflexivity | exact Hparts].
Qed.

End SortedElements.

(** * Missing nested fields *)

Lemma forallb_pointwise {A} (f g : A -> bool) (l : list A) :
  (forall x, f x = g x) -> forallb f l = forallb g l.
Proof.
  intros Hfg. induction l as [|x l IH]; simpl; [reflexivity|].
  by rewrite Hfg, IH.
Qed.

Section MissingFields.
Context `{Imports State}.

Lemma wellRadius_is_Ok (elements : list Element.t) :
  is_Ok (wellRadius elements) = forallb has_diameter elements.
Proof.
  unfold wellRadius.
  rewrite <- (forallb_pointwise
    (fun part => is_Ok (d <-! req (Element.diameter part); Ok (Diameter.value d)))).
  - rewrite <- rmap_is_Ok. destruct (rmap _ elements) as [values|]; simpl; [|reflexivity].
    by destruct (length (non_null values) =? 0)%nat.
  - intros e. unfold has_diameter. by destruct (Element.diameter e).
Qed.

Lemma constructionElements_is_Ok (elements : list Element.t) (xScale yScale : Scale.t) :
  Forall (fun e => isDrawable e = true) elements ->
  is_Ok (constructionElements elements xScale yScale) = forallb has_diameter elements.
Proof.
  intros Hd. unfold constructionElements.
  transitivity (is_Ok (rmap (makePart xScale yScale) elements)).
  { by destruct (rmap _ elements). }
  rewrite rmap_is_Ok.
  induction Hd as [|e es He _ IH]; simpl; [reflexivity|].
  by rewrite IH, makePart_is_Ok, He.
Qed.

(** C3, as amended.  [getWellRadius] and [getConstructionElements] return a
    value exactly when every drawable element carries a [diameter] object;
    the value of that object may be [null].  Elements without [position] or
    [position.coordinates] are filtered out and never read. *)
Theorem diameter_object_needed (chartType : ChartType) (s : State) :
  is_Ok (getWellRadius s) = forallb has_diameter (getDrawableElements s) /\
  is_Ok (getConstructionElements chartType s) =
  forallb has_diameter (getDrawableElements s).
Proof.
  split; [apply wellRadius_is_Ok|].
  unfold getConstructionElements, getRadiusScale.
  pose proof (wellRadius_is_Ok (getDrawableElements s)) as Hr.
  unfold getWellRadius.
  destruct (wellRadius (getDrawableElements s)) as [r|]; simpl in *; [|exact Hr].
  apply constructionElements_is_Ok, getDrawableElements_drawable.
Qed.

End MissingFields.

(** * The water-level service and the median table *)

Lemma siteKey_status (agencyCode siteId : string) (st : Service.t) (c : CallStatus) :
  getWaterLevelStatus agencyCode siteId
    (reducer st (WATER_LEVELS_CALL_STATUS agencyCode siteId c)) = Some c.
Proof. unfold getWaterLevelStatus. simpl. apply lookup_insert_eq. Qed.

(** C2.  A retrieval that is let through (the status of the key is neither
    STARTED nor DONE) and whose request is answered with parsed records
    dispatches exactly three actions: the STARTED status, the records, the
    DONE status.  An observer sees STARTED with the records of the key
    still as they were, then the parsed records while the status is still
    STARTED, then DONE with the parsed records in place. *)
Theorem retrieveWaterLevels_success (agencyCode siteId : string)
    (parsed : WaterLevels.t) (st : Service.t) :
  getWaterLevelStatus agencyCode siteId st <> Some STARTED ->
  getWaterLevelStatus agencyCode siteId st <> Some DONE ->
  let actions := retrieveWaterLevels agencyCode siteId (Response200 parsed) st in
  actions = [ WATER_LEVELS_CALL_STATUS agencyCode siteId STARTED;
              WATER_LEVELS_SET agencyCode siteId parsed;
              WATER_LEVELS_CALL_STATUS agencyCode siteId DONE ] /\
  exists s1 s2 s3,
    observe st actions = [s1; s2; s3] /\
    getWaterLevelStatus agencyCode siteId s1 = Some STARTED /\
    getSiteWaterLevels agencyCode siteId s1 = getSiteWaterLevels agencyCode siteId st /\
    getWaterLevelStatus agencyCode siteId s2 = Some STARTED /\
    getSiteWaterLevels agencyCode siteId s2 = parsed /\
    getWaterLevelStatus agencyCode siteId s3 = Some DONE /\
    getSiteWaterLevels agencyCode siteId s3 = parsed.
Proof.
  intros Hstarted Hdone actions.
  assert (Hacts : actions =
            [ WATER_LEVELS_CALL_STATUS agencyCode siteId STARTED;
              WATER_LEVELS_SET agencyCode siteId parsed;
              WATER_LEVELS_CALL_STATUS agencyCode siteId DONE ]).
  { unfold actions, retrieveWaterLevels.
    destruct (getWaterLevelStatus agencyCode siteId st) as [[| |]|]; congruence. }
  split; [exact Hacts|]. rewrite Hacts. simpl. do 3 eexists.
  split; [reflexivity|].
  unfold getWaterLevelStatus, getSiteWaterLevels. simpl.
  rewrite !lookup_insert_eq. done.
Qed.

(** C8, as amended.  The component dispatches the retrieval only when no
    status is recorded for the key: once a status has been set, be it
    STARTED, DONE or FAILED, nothing is dispatched. *)
Theorem component_dispatch_gate (agencyCode siteId : string) (st : Service.t)
    (c : CallStatus) :
  component_dispatch agencyCode siteId
    (reducer st (WATER_LEVELS_CALL_STATUS agencyCode siteId c)) = [] /\
  component_dispatch agencyCode siteId Service.empty =
    [retrieveMedianWaterLevels agencyCode siteId] /\
  match getWaterLevelStatus agencyCode siteId st with
  | Some _ => component_dispatch agencyCode siteId st = []
  | None => component_dispatch agencyCode siteId st =
            [retrieveMedianWaterLevels agencyCode siteId]
  end.
Proof.
  unfold component_dispatch. rewrite siteKey_status.
  split; [reflexivity|]. split; [reflexivity|].
  by destruct (getWaterLevelStatus agencyCode siteId st).
Qed.

Section MedianTableFacts.
Context {Sample : Type}.

Lemma drawTableBody_reverses (h : gmap loc (list Sample)) (wl : WaterLevels.t)
    (l : loc) (arr : list Sample) :
  WaterLevels.samples wl = Some l -> h !! l = Some arr ->
  drawTableBody h wl = (<[l := reverse arr]> h, reverse arr).
Proof.
  intros Hl Harr. unfold drawTableBody, Array_reverse. rewrite Hl, Harr.
  by rewrite lookup_insert_eq.
Qed.

(** Drawing the table reverses the samples of the stored record. *)
Lemma drawTableBody_stored (h : gmap loc (list Sample)) (st : Service.t)
    (agencyCode siteId : string) :
  stored_samples (drawTableBody h (getSiteWaterLevels agencyCode siteId st)).1
    st agencyCode siteId =
  reverse (stored_samples h st agencyCode siteId).
Proof.
  unfold stored_samples, drawTableBody, Array_reverse.
  destruct (WaterLevels.samples (getSiteWaterLevels agencyCode siteId st)) as [l|];
    simpl; [|reflexivity].
  destruct (h !! l) as [arr|] eqn:Harr; simpl.
  - by rewrite lookup_insert_eq.
  - by rewrite Harr.
Qed.

End MedianTableFacts.

(** C5, on the code.  [drawTableBody] reverses the array of the stored
    record in place: after one draw of the stored record of
    [USGS:12345678] the store holds the samples in the order [2, 1]
    instead of [1, 2], and a second draw lists them unreversed. *)
Theorem drawTableBody_mutates_stored_samples :
  let waterLevels := getSiteWaterLevels "USGS" "12345678" example_service in
  let once := linked example_heap true waterLevels in
  let twice := linked once.1 true waterLevels in
  stored_samples example_heap example_service "USGS" "12345678" = [1; 2] /\
  once.2 = [2; 1] /\
  stored_samples once.1 example_service "USGS" "12345678" = [2; 1] /\
  twice.2 = [1; 2].
Proof. vm_compute. repeat split. Qed.

(** * The theorems at concrete inputs *)

Lemma fillRadii_inference_2005 :
  exists parts,
    rmap (makePart identity_scale identity_scale) radii_2005 = Ok parts /\
    map Part.radius parts = [Fin 2; Fin 0; Fin 0; Fin 5] /\
    effective_radii (map Part.radius parts) = [Fin 2; Fin 2; Fin 2; Fin 5] /\
    map part_xs (fillRadii identity_scale parts) =
    map (xs_at identity_scale) [Fin 2; Fin 2; Fin 2; Fin 5].
Proof.
  eexists. split; [reflexivity|]. split; [reflexivity|]. split; [reflexivity|].
  destruct (fillRadii_inference identity_scale identity_scale radii_2005 _ eq_refl)
    as (_ & _ & Hxs).
  rewrite Hxs. reflexivity.
Defined.

Lemma retrieveWaterLevels_success_empty_store :
  let parsed := WaterLevels.mk "111.3" (Some 1%positive) in
  let actions := retrieveWaterLevels "USGS" "430406089232901"
                   (Response200 parsed) Service.empty in
  getWaterLevelStatus "USGS" "430406089232901" Service.empty = None /\
  actions =
  [ WATER_LEVELS_CALL_STATUS "USGS" "430406089232901" STARTED;
    WATER_LEVELS_SET "USGS" "430406089232901" parsed;
    WATER_LEVELS_CALL_STATUS "USGS" "430406089232901" DONE ] /\
  map (getWaterLevelStatus "USGS" "430406089232901") (observe Service.empty actions) =
  [Some STARTED; Some STARTED; Some DONE] /\
  map (getSiteWaterLevels "USGS" "430406089232901") (observe Service.empty actions) =
  [WaterLevels.empty; parsed; parsed].
Proof.
  intros parsed actions.
  assert (Hstarted : getWaterLevelStatus "USGS" "430406089232901" Service.empty
                     <> Some STARTED) by (vm_compute; discriminate).
  assert (Hdone : getWaterLevelStatus "USGS" "430406089232901" Service.empty
                  <> Some DONE) by (vm_compute; discriminate).
  destruct (retrieveWaterLevels_success "USGS" "430406089232901" parsed
              Service.empty Hstarted Hdone)
    as (Hactions & s1 & s2 & s3 & Hobs & H1 & H1' & H2 & H2' & H3 & H3').
  split; [reflexivity|]. split; [exact Hactions|].
  fold actions in Hobs. rewrite Hobs. simpl.
  rewrite H1, H2, H3, H1', H2', H3'. split; reflexivity.
Defined.

Lemma getConstructionElements_sorted_10_10_5 :
  let s := example_state (WellLog.mk None (Some pairs_10_10_5)) in
  forallb (scaled_end (getScaleY "lithology" s)) (getDrawableElements s) = true /\
  exists sorted,
    getConstructionElements "lithology" s = Ok sorted /\
    map (fun p => (Side.y2 (Part.left p), Part.radius p)) sorted =
      [(Fin 10, Fin 5); (Fin 10, Fin 2); (Fin 5, Fin 3)] /\
    StronglySorted precedes sorted.
Proof.
  intros s. split; [reflexivity|].
  eexists. split; [reflexivity|]. split; [reflexivity|].
  assert (Hends : forallb (scaled_end (getScaleY "lithology" s))
                    (getDrawableElements s) = true) by reflexivity.
  destruct (getConstructionElements_sorted "lithology" s _ Hends eq_refl)
    as (xScale & parts & _ & _ & _ & Hsorted & _).
  exact Hsorted.
Defined.

(** Two parts with the same [(y2, radius)] stay in list order, behind a
    deeper part that came after them. *)
Example equal_keys_keep_order :
  let elements :=
    [ casing 0 10 (diam (Some 4%Q));
      {| Element.position := coords 0 10; Element.diameter := diam (Some 4%Q);
         Element.type := "screen" |};
      {| Element.position := coords 10 20; Element.diameter := diam (Some 4%Q);
         Element.type := "liner" |} ] in
  rbind (getConstructionElements "lithology"
           (example_state (WellLog.mk None (Some elements))))
        (fun sorted => Ok (map Part.type sorted)) =
  Ok ["liner"; "casing"; "screen"].
Proof. reflexivity. Qed.

Lemma getConstructionExtentY_no_drawable_example :
  getDrawableElements (example_state (WellLog.mk None (Some [no_position]))) = [] /\
  getConstructionExtentY (example_state (WellLog.mk None (Some [no_position]))) =
  Ok (PInf, NInf).
Proof.
  split; [reflexivity|].
  apply (getConstructionExtentY_no_drawable
           (example_state (WellLog.mk None (Some [no_position])))).
  reflexivity.
Defined.

Lemma getWellLogExtentY_no_drawable_example :
  getWellLogExtentY
    (example_state (WellLog.mk (Some [entry 5 10; entry 2 20]) (Some [no_position]))) =
  Ok (Fin 2, Fin 20) /\
  getWellLogExtentY (example_state WellLog.empty) = Ok (Fin 0, Fin 0).
Proof.
  split.
  - assert (Hd : getDrawableElements (example_state
      (WellLog.mk (Some [entry 5 10; entry 2 20]) (Some [no_position]))) = [])
      by reflexivity.
    destruct (getWellLogExtentY_no_drawable _ Hd) as (Heq & _).
    rewrite Heq. reflexivity.
  - assert (Hd : getDrawableElements (example_state WellLog.empty) = [])
      by reflexivity.
    destruct (getWellLogExtentY_no_drawable _ Hd) as (_ & _ & _ & Hnil).
    apply Hnil. reflexivity.
Defined.

(** * Where the code departs from the specification *)

(** C3 fails on a drawable element without a [diameter] field: both
    selectors raise. *)
Lemma missing_diameter_raises :
  let s := example_state (WellLog.mk None (Some [no_diameter])) in
  getDrawableElements s = [no_diameter] /\
  Element.diameter no_diameter = None /\
  ~ (exists r, getWellRadius s = Ok r) /\
  ~ (exists parts, getConstructionElements "lithology" s = Ok parts).
Proof.
  split; [reflexivity|]. split; [reflexivity|].
  split; intros [v Hv]; vm_compute in Hv; discriminate.
Qed.


(** C8 fails on a FAILED status: the component dispatches no retry. *)
Lemma failed_status_no_retry :
  let st := reducer Service.empty
              (WATER_LEVELS_CALL_STATUS "USGS" "430406089232901" FAILED) in
  getWaterLevelStatus "USGS" "430406089232901" st = Some FAILED /\
  component_dispatch "USGS" "430406089232901" st = [] /\
  component_dispatch "USGS" "430406089232901" st <>
    [retrieveMedianWaterLevels "USGS" "430406089232901"].
Proof. vm_compute. repeat split. discriminate. Qed.

(** * Further properties of well-log.js *)

Section Lithology.
Context `{Imports State}.

Lemma or_zero_not_NaN (v : num) : num_isNaN (or_zero v) = false.
Proof. unfold or_zero. by destruct v as [q| | |]; simpl; try destruct (Qeq_bool q 0). Qed.

(** X1. [getLithology] returns one rectangle per log entry, in entry order
    and carrying its entry; every rectangle takes [x] and [width] from the
    chart position; its [y] is the scaled start depth when that is truthy
    and [0] when it is falsy ([NaN] or [0]), and so is never [NaN]; its
    [height] is the scaled end depth, replaced by [0] in the same way,
    minus [y]. *)
Theorem getLithology_rectangles (chartType : ChartType) (s : State) :
  map LithRect.entry (getLithology chartType s) = getWellLogEntries s /\
  Forall (fun r =>
    let yScale := getScaleY chartType s in
    LithRect.x r = Layout.x (getChartPosition chartType s) /\
    LithRect.width r = Layout.width (getChartPosition chartType s) /\
    let top := Scale.call yScale (entry_start (LithRect.entry r)) in
    let bottom := Scale.call yScale (entry_end (LithRect.entry r)) in
    num_isNaN (LithRect.y r) = false /\
    LithRect.y r = (if truthy top then top else Fin 0) /\
    LithRect.height r =
      num_sub (if truthy bottom then bottom else Fin 0) (LithRect.y r))
    (getLithology chartType s).
Proof.
  unfold getLithology, lithology.
  induction (getWellLogEntries s) as [|e es [IHe IHr]]; simpl.
  - split; [reflexivity | constructor].
  - split; [by rewrite IHe|]. constructor; [|exact IHr]. simpl.
    repeat split. apply or_zero_not_NaN.
Qed.

End Lithology.

Section Extents.
Context `{Imports State}.

Lemma rmap_coordinate (proj : Coordinates.t -> Q) (elements : list Element.t) :
  Forall (fun e => isDrawable e = true) elements ->
  rmap (fun elem => c <-! elem_coordinates elem; Ok (Fin (proj c))) elements =
  Ok (map (fun e => Fin (coordinate proj e)) elements).
Proof.
  induction 1 as [|e es He _ IH]; simpl; [reflexivity|].
  rewrite IH. unfold coordinate. apply isDrawable_coordinates in He.
  by destruct (elem_coordinates e).
Qed.

Lemma on_coordinates_coordinate (proj : Coordinates.t -> Q) (P : Q -> Prop)
    (elements : list Element.t) :
  Forall (fun e => isDrawable e = true) elements ->
  (Forall (fun e => P (coordinate proj e)) elements ->
   Forall (on_coordinates (fun c => P (proj c))) elements) /\
  (Exists (fun e => P (coordinate proj e)) elements ->
   Exists (on_coordinates (fun c => P (proj c))) elements).
Proof.
  intros Hd. split.
  - intros HP. rewrite Forall_forall in Hd, HP. apply Forall_forall.
    intros e He. specialize (Hd e He). specialize (HP e He).
    apply isDrawable_coordinates in Hd. unfold on_coordinates, coordinate in *.
    by destruct (elem_coordinates e).
  - intros HP. rewrite Forall_forall in Hd.
    apply Exists_exists in HP as (e & He & HP). apply Exists_exists.
    exists e. split; [exact He|].
    specialize (Hd e He).
    apply isDrawable_coordinates in Hd. unfold on_coordinates, coordinate in *.
    by destruct (elem_coordinates e).
Qed.

Lemma constructionExtentY_bounds (e : Element.t) (es : list Element.t) :
  Forall (fun e => isDrawable e = true) (e :: es) ->
  exists lo hi,
    constructionExtentY (e :: es) = Ok (Fin lo, Fin hi) /\
    Exists (on_coordinates (fun c => Coordinates.start c = lo)) (e :: es) /\
    Forall (on_coordinates (fun c => (lo <= Coordinates.start c)%Q)) (e :: es) /\
    Exists (on_coordinates (fun c => Coordinates.end_ c = hi)) (e :: es) /\
    Forall (on_coordinates (fun c => (Coordinates.end_ c <= hi)%Q)) (e :: es).
Proof.
  intros Hd. unfold constructionExtentY.
  rewrite !rmap_coordinate by exact Hd. cbn [rbind].
  destruct (Math_min_fin (coordinate Coordinates.start) e es) as (lo & -> & Hlo & Hlo').
  destruct (Math_max_fin (coordinate Coordinates.end_) e es) as (hi & -> & Hhi & Hhi').
  exists lo, hi. split; [reflexivity|].
  pose proof (on_coordinates_coordinate Coordinates.start (fun q => q = lo) _ Hd) as [_ H1].
  pose proof (on_coordinates_coordinate Coordinates.start (fun q => (lo <= q)%Q) _ Hd) as [H2 _].
  pose proof (on_coordinates_coordinate Coordinates.end_ (fun q => q = hi) _ Hd) as [_ H3].
  pose proof (on_coordinates_coordinate Coordinates.end_ (fun q => (q <= hi)%Q) _ Hd) as [H4 _].
  auto.
Qed.

(** X3. With at least one drawable element, [getConstructionExtentY]
    returns the least start depth and the greatest end depth of the
    drawable elements: both finite, each attained by a drawable element
    and bounding all of them.  Elements without position data play no
    part. *)
Theorem getConstructionExtentY_min_max (s : State) :
  getDrawableElements s <> [] ->
  exists lo hi,
    getConstructionExtentY s = Ok (Fin lo, Fin hi) /\
    Exists (on_coordinates (fun c => Coordinates.start c = lo)) (getDrawableElements s) /\
    Forall (on_coordinates (fun c => (lo <= Coordinates.start c)%Q)) (getDrawableElements s) /\
    Exists (on_coordinates (fun c => Coordinates.end_ c = hi)) (getDrawableElements s) /\
    Forall (on_coordinates (fun c => (Coordinates.end_ c <= hi)%Q)) (getDrawableElements s).
Proof.
  intros Hne. unfold getConstructionExtentY.
  pose proof (getDrawableElements_drawable s) as Hd.
  destruct (getDrawableElements s) as [|e es]; [done|].
  by apply constructionExtentY_bounds.
Qed.

Lemma entriesExtentY_bounds (entries : list Entry.t) :
  exists lo hi,
    entriesExtentY entries = (Fin lo, Fin hi) /\
    Forall (fun e =>
      (lo <= Coordinates.start (Shape.coordinates (Entry.shape e)))%Q /\
      (Coordinates.end_ (Shape.coordinates (Entry.shape e)) <= hi)%Q) entries.
Proof.
  destruct entries as [|e es]; [exists 0%Q, 0%Q; split; [reflexivity | constructor]|].
  unfold entriesExtentY. change (length (e :: es) =? 0)%nat with false. cbv iota.
  destruct (Math_min_fin (fun e => Coordinates.start (Shape.coordinates (Entry.shape e))) e es)
    as (lo & Hlo & _ & Hlo').
  destruct (Math_max_fin (fun e => Coordinates.end_ (Shape.coordinates (Entry.shape e))) e es)
    as (hi & Hhi & _ & Hhi').
  exists lo, hi. unfold entry_start, entry_end. rewrite Hlo, Hhi.
  split; [reflexivity|].
  rewrite Forall_forall in Hlo', Hhi'. apply Forall_forall. intros x Hx. auto.
Qed.

Lemma wellLogExtentY_fin (a b c d : Q) :
  exists lo hi,
    wellLogExtentY (Fin a, Fin b) (Fin c, Fin d) = (Fin lo, Fin hi) /\
    (lo <= a)%Q /\ (lo <= c)%Q /\ (b <= hi)%Q /\ (d <= hi)%Q.
Proof.
  unfold wellLogExtentY, Math_min, Math_max. simpl.
  destruct (Qlt_bool c a) eqn:Hca, (Qlt_bool b d) eqn:Hbd; Qbool;
    eexists _, _; (split; [reflexivity|]); repeat split; lra.
Qed.

(** [getWellLogExtentY] always returns a pair of finite depths, the first
    at most every start depth and the second at least every end depth. *)
Lemma getWellLogExtentY_outer (s : State) :
  exists lo hi,
    getWellLogExtentY s = Ok (Fin lo, Fin hi) /\
    Forall (fun e =>
      (lo <= Coordinates.start (Shape.coordinates (Entry.shape e)))%Q /\
      (Coordinates.end_ (Shape.coordinates (Entry.shape e)) <= hi)%Q)
      (getWellLogEntries s) /\
    Forall (on_coordinates (fun c =>
      (lo <= Coordinates.start c)%Q /\ (Coordinates.end_ c <= hi)%Q))
      (getDrawableElements s).
Proof.
  unfold getWellLogExtentY, getWellLogEntriesExtentY, getConstructionExtentY.
  destruct (entriesExtentY_bounds (getWellLogEntries s)) as (a & b & -> & Hent).
  pose proof (getDrawableElements_drawable s) as Hd.
  destruct (getDrawableElements s) as [|e es].
  - change (constructionExtentY []) with (Ok (PInf, NInf)). cbn [rbind].
    rewrite wellLogExtentY_neutral. exists a, b.
    split; [reflexivity|]. split; [exact Hent | constructor].
  - destruct (constructionExtentY_bounds e es Hd) as (c & d & -> & _ & Hc & _ & Hd').
    cbn [rbind].
    destruct (wellLogExtentY_fin a b c d) as (lo & hi & -> & Hla & Hlc & Hbh & Hdh).
    exists lo, hi. split; [reflexivity|]. split.
    + eapply Forall_impl; [exact Hent|]. simpl. intros x [? ?]. split; lra.
    + rewrite Forall_forall in Hc, Hd'. apply Forall_forall. intros x Hx.
      specialize (Hc x Hx). specialize (Hd' x Hx). unfold on_coordinates in *.
      destruct (elem_coordinates x); [split; lra | done].
Qed.

(** X4. When every log entry and every drawable construction element has
    its start depth at or above its end depth ([start <= end]),
    [getWellLogExtentY] returns a pair of finite depths [[lo, hi]] that
    contains the whole depth range of each of them: both its start and its
    end lie between [lo] and [hi]. *)
Theorem getWellLogExtentY_hull (s : State) :
  Forall (fun e =>
    (Coordinates.start (Shape.coordinates (Entry.shape e)) <=
     Coordinates.end_ (Shape.coordinates (Entry.shape e)))%Q)
    (getWellLogEntries s) ->
  Forall (on_coordinates (fun c => (Coordinates.start c <= Coordinates.end_ c)%Q))
    (getDrawableElements s) ->
  exists lo hi,
    getWellLogExtentY s = Ok (Fin lo, Fin hi) /\
    Forall (fun e =>
      (lo <= Coordinates.start (Shape.coordinates (Entry.shape e)) <= hi)%Q /\
      (lo <= Coordinates.end_ (Shape.coordinates (Entry.shape e)) <= hi)%Q)
      (getWellLogEntries s) /\
    Forall (on_coordinates (fun c =>
      (lo <= Coordinates.start c <= hi)%Q /\ (lo <= Coordinates.end_ c <= hi)%Q))
      (getDrawableElements s).
Proof.
  intros Hent Hcon.
  destruct (getWellLogExtentY_outer s) as (lo & hi & Heq & Hent' & Hcon').
  exists lo, hi. split; [exact Heq|]. split.
  - rewrite Forall_forall in Hent, Hent'. apply Forall_forall. intros e He.
    specialize (Hent e He). specialize (Hent' e He). simpl in *. lra.
  - rewrite Forall_forall in Hcon, Hcon'. apply Forall_forall. intros e He.
    specialize (Hcon e He). specialize (Hcon' e He). unfold on_coordinates in *.
    destruct (elem_coordinates e); [lra | done].
Qed.

(** X15. Without log entries the entries extent [[0, 0]] still takes part
    in the combine: when the well log has drawable construction elements
    but no entries, the extent of [getWellLogExtentY] reaches from the
    construction's depths to the surface, so it always contains [0]. *)
Theorem getWellLogExtentY_contains_surface (s : State) :
  getWellLogEntries s = [] ->
  exists lo hi,
    getWellLogExtentY s = Ok (Fin lo, Fin hi) /\ (lo <= 0)%Q /\ (0 <= hi)%Q.
Proof.
  intros Hnil.
  unfold getWellLogExtentY, getWellLogEntriesExtentY, getConstructionExtentY.
  rewrite Hnil. change (entriesExtentY []) with (Fin 0, Fin 0).
  pose proof (getDrawableElements_drawable s) as Hd.
  destruct (getDrawableElements s) as [|e es].
  - exists 0%Q, 0%Q. split; [reflexivity | split; lra].
  - destruct (constructionExtentY_bounds e es Hd) as (c & d & -> & _).
    cbn [rbind].
    destruct (wellLogExtentY_fin 0 0 c d) as (lo & hi & -> & Hla & _ & Hbh & _).
    exists lo, hi. by split.
Qed.

End Extents.

Section UnknownSite.
Context `{Imports State}.

(** X2. When the store has no well log for the current site, every
    derivation falls back to its default instead of failing: no entries and
    the extent [[0, 0]], no drawable element and the construction extent
    [[Infinity, -Infinity]], the overall extent [[0, 0]], the well radius
    [1], no lithology rectangle and no construction part. *)
Theorem unknown_site_defaults (s : State) :
  getWellLogs s !! getCurrentSiteID s = None ->
  getWellLogEntries s = [] /\
  getWellLogEntriesExtentY s = (Fin 0, Fin 0) /\
  getDrawableElements s = [] /\
  getConstructionExtentY s = Ok (PInf, NInf) /\
  getWellLogExtentY s = Ok (Fin 0, Fin 0) /\
  getWellRadius s = Ok (Fin 1) /\
  forall chartType,
    getLithology chartType s = [] /\
    getConstructionElements chartType s = Ok [].
Proof.
  intros Hsite.
  assert (Hlog : getCurrentWellLog s = WellLog.empty).
  { unfold getCurrentWellLog. by rewrite Hsite. }
  assert (Hentries : getWellLogEntries s = []).
  { unfold getWellLogEntries. by rewrite Hlog. }
  assert (Hdraw : getDrawableElements s = []).
  { unfold getDrawableElements. by rewrite Hlog. }
  unfold getWellLogEntriesExtentY, getConstructionExtentY, getWellLogExtentY,
    getWellLogEntriesExtentY, getConstructionExtentY, getWellRadius, getLithology,
    getConstructionElements, getRadiusScale, getWellRadius.
  rewrite Hentries, Hdraw. repeat split; reflexivity.
Qed.

End UnknownSite.

Section WellRadius.
Context `{Imports State}.

Lemma null_diameters_values (elements : list Element.t) :
  forallb null_diameter elements = true ->
  exists values,
    rmap (fun part => d <-! req (Element.diameter part); Ok (Diameter.value d))
         elements = Ok values /\
    non_null values = [].
Proof.
  induction elements as [|e es IH]; simpl.
  - intros _. by exists [].
  - rewrite andb_true_iff. intros [He Hes].
    destruct (IH Hes) as (values & -> & Hnil).
    unfold null_diameter in He.
    destruct (Element.diameter e) as [d|]; [|discriminate]. simpl.
    destruct (Diameter.value d) eqn:Hv; [discriminate|].
    exists (None :: values). by split.
Qed.

(** X5. When no drawable element has a diameter value (there is no
    drawable element, or every one carries a [diameter] object with a
    [null] value), [getWellRadius] is [1]. *)
Theorem getWellRadius_default (s : State) :
  forallb null_diameter (getDrawableElements s) = true ->
  getWellRadius s = Ok (Fin 1).
Proof.
  intros Hnull. unfold getWellRadius, wellRadius.
  destruct (null_diameters_values _ Hnull) as (values & -> & Hnil).
  cbn [rbind]. by rewrite Hnil.
Qed.

Lemma half_le (v hi : Q) : (v <= hi)%Q -> Qlt_bool (Qred (hi / 2)) (v / 2) = false.
Proof.
  intros Hle. Qbool. rewrite Qred_correct.
  unfold Qdiv. apply Qmult_le_compat_r; [exact Hle | done].
Qed.

Lemma wellRadius_bound (elements : list Element.t) (r : num) :
  wellRadius elements = Ok r ->
  isFinite r = true /\
  Forall (on_diameter (fun v => num_lt r (Fin (v / 2)) = false)) elements.
Proof.
  unfold wellRadius.
  destruct (rmap _ elements) as [values|] eqn:Hvalues; [|discriminate].
  cbn [rbind]. apply rmap_Ok_inv in Hvalues.
  assert (Hin : Forall (on_diameter (fun v => v ∈ non_null values)) elements).
  { unfold non_null. induction Hvalues as [|e v es vs Hev _ IH]; constructor.
    - unfold on_diameter. destruct (Element.diameter e) as [d|]; [|done].
      simpl in Hev. injection Hev as <-.
      destruct (Diameter.value d) as [q|]; [|done]. simpl. left.
    - eapply Forall_impl; [exact IH|]. intros x. unfold on_diameter.
      destruct (Element.diameter x) as [d|]; [|done].
      destruct (Diameter.value d) as [q|]; [|done].
      simpl. destruct v; simpl; [by right | done]. }
  destruct (non_null values) as [|q qs] eqn:Hnn.
  - simpl. intros [= <-]. split; [reflexivity|].
    eapply Forall_impl; [exact Hin|]. intros x. unfold on_diameter.
    destruct (Element.diameter x) as [d|]; [|done].
    destruct (Diameter.value d) as [v|]; [|done].
    intros Hv. by apply elem_of_nil in Hv.
  - change (length (q :: qs) =? 0)%nat with false. cbv iota.
    destruct (Math_max_fin (fun v : Q => v) q qs) as (hi & Hhi & _ & Hle).
    change (map (fun e : Q => Fin e) (q :: qs)) with (map Fin (q :: qs)) in Hhi.
    rewrite Hhi. intros [= <-]. split; [reflexivity|].
    eapply Forall_impl; [exact Hin|]. intros x. unfold on_diameter.
    destruct (Element.diameter x) as [d|]; [|done].
    destruct (Diameter.value d) as [v|]; [|done].
    intros Hv. rewrite Forall_forall in Hle. specialize (Hle v Hv).
    simpl. by apply half_le.
Qed.

(** X6. The radius returned by [getWellRadius] is finite, and half of
    every diameter value of a drawable element is at most that radius: no
    measured pipe is wider than the radius scale's domain. *)
Theorem getWellRadius_bound (s : State) (r : num) :
  getWellRadius s = Ok r ->
  isFinite r = true /\
  Forall (on_diameter (fun v => num_lt r (Fin (v / 2)) = false))
         (getDrawableElements s).
Proof. apply wellRadius_bound. Qed.

End WellRadius.

Section ConstructionParts.
Context `{Imports State}.

Lemma makePart_shape (xScale yScale : Scale.t) (e : Element.t) (p : Part.t) :
  makePart xScale yScale e = Ok p ->
  Part.type p = Element.type e /\ level_sides p.
Proof.
  unfold makePart.
  destruct (Element.position e) as [pos|]; simpl; [|discriminate].
  destruct (Element.diameter e) as [d|]; simpl; [|discriminate].
  destruct (Position.coordinates pos) as [c|]; simpl; [|discriminate].
  intros [= <-]. by repeat split.
Qed.

Lemma resolved_shape (xScale : Scale.t) (radii : list num) (j : nat) (p : Part.t) :
  Part.type (resolved xScale radii j p) = Part.type p /\
  (level_sides p -> level_sides (resolved xScale radii j p)).
Proof. unfold resolved. by destruct (has_radius p). Qed.

Lemma resolved_xs (xScale : Scale.t) (radii : list num) (j : nat) (p : Part.t) :
  part_xs p = (if has_radius p then xs_at xScale (Part.radius p) else (None, None)) ->
  exists r, part_xs (resolved xScale radii j p) = xs_at xScale r.
Proof.
  unfold resolved. destruct (has_radius p); intros Hxs.
  - by exists (Part.radius p).
  - by exists (inferred_radius radii j).
Qed.

(** X7. When [getConstructionElements] returns, it returns one part per
    drawable element, with the same types overall; every part has both x
    coordinates set (none is left [null]), at minus and plus one radius on
    the radius scale, and its two sides span the same depths. *)
Theorem getConstructionElements_parts (chartType : ChartType) (s : State)
    (sorted : list Part.t) :
  getConstructionElements chartType s = Ok sorted ->
  exists xScale,
    getRadiusScale chartType s = Ok xScale /\
    length sorted = length (getDrawableElements s) /\
    Permutation (map Part.type sorted) (map Element.type (getDrawableElements s)) /\
    Forall (fun p => level_sides p /\ exists r, part_xs p = xs_at xScale r) sorted.
Proof.
  unfold getConstructionElements, constructionElements.
  destruct (getRadiusScale chartType s) as [xScale|]; simpl; [|discriminate].
  destruct (rmap _ (getDrawableElements s)) as [parts|] eqn:Hparts;
    simpl; [|discriminate].
  intros [= <-]. exists xScale. split; [reflexivity|].
  pose proof (makePart_finite _ _ _ _ Hparts) as Hfin.
  pose proof (makePart_xs _ _ _ _ Hparts) as Hxs.
  apply rmap_Ok_inv in Hparts.
  pose proof (Array_sort_Permutation compareParts (fillRadii xScale parts)) as Hperm.
  rewrite (fillRadii_imap xScale parts Hfin) in *.
  split; [|split].
  - rewrite Hperm, length_imap. symmetry. by eapply Forall2_length.
  - rewrite Hperm.
    assert (Htypes : map Part.type (imap (resolved xScale (map Part.radius parts)) parts)
                     = map Element.type (getDrawableElements s)).
    { apply list_eq. intros j. rewrite !list_lookup_fmap, list_lookup_imap.
      destruct (parts !! j) as [p|] eqn:Hp; simpl.
      - destruct (Forall2_lookup_r _ _ _ _ _ Hparts Hp) as (e & -> & He). simpl.
        apply makePart_shape in He as [Htype _].
        by rewrite (proj1 (resolved_shape _ _ _ _)), Htype.
      - apply lookup_ge_None in Hp. rewrite <- (Forall2_length _ _ _ Hparts) in Hp.
        apply lookup_ge_None in Hp. by rewrite Hp. }
    by rewrite Htypes.
  - rewrite Hperm. apply Forall_lookup. intros j p' Hj.
    apply list_lookup_imap_Some in Hj as (p & Hp & ->).
    destruct (Forall2_lookup_r _ _ _ _ _ Hparts Hp) as (e & _ & He).
    apply makePart_shape in He as [_ Hlevel].
    rewrite Forall_lookup in Hxs. split.
    + by apply resolved_shape.
    + apply resolved_xs. by eapply Hxs.
Qed.

End ConstructionParts.

Section InferenceEdges.
Context (xScale : Scale.t).

Lemma fill_step_has_radius (parts : list Part.t) (index : nat) :
  forallb has_radius parts = true -> fill_step xScale parts index = parts.
Proof.
  intros Hall. unfold fill_step.
  destruct (parts !! index) as [part|] eqn:Hpart; [|reflexivity].
  rewrite forallb_forall in Hall.
  rewrite (Hall part); [reflexivity|].
  apply list_elem_of_In. by eapply list_elem_of_lookup_2.
Qed.

(** X8. When every part already has a truthy radius, the radius-inference
    loop changes nothing. *)
Theorem fillRadii_complete (parts : list Part.t) :
  forallb has_radius parts = true -> fillRadii xScale parts = parts.
Proof.
  intros Hall. unfold fillRadii.
  induction (seq 0 (length parts)) as [|i l IH]; simpl; [reflexivity|].
  by rewrite fill_step_has_radius.
Qed.

Lemma filter_truthy_nil (radii : list num) :
  Forall (fun r => truthy r = false) radii -> List.filter truthy radii = [].
Proof.
  induction 1 as [|r l Hr _ IH]; simpl; [reflexivity|]. by rewrite Hr.
Qed.

Lemma inferred_radius_default (radii : list num) (index : nat) :
  Forall (fun r => truthy r = false) radii ->
  inferred_radius radii index = Fin 1.
Proof.
  intros Hnone. unfold inferred_radius, nearest_before, nearest_after.
  rewrite (filter_truthy_nil (take index radii)) by (by apply Forall_take).
  rewrite (filter_truthy_nil (drop (S index) radii)) by (by apply Forall_drop).
  reflexivity.
Qed.

End InferenceEdges.

Section InferenceDefault.
Context `{Imports State} (xScale yScale : Scale.t).

(** X9. When no part of the per-element pass has a truthy radius (every
    diameter value is [null] or [0]), the radius-inference loop draws every
    part at the x positions of [-1] and [+1] on the radius scale. *)
Theorem fillRadii_no_radius (elements : list Element.t) (parts : list Part.t) :
  rmap (makePart xScale yScale) elements = Ok parts ->
  existsb has_radius parts = false ->
  fillRadii xScale parts =
  map (fun p => assign_xs p (Scale.call xScale (Fin (-1))) (Scale.call xScale (Fin 1)))
      parts.
Proof.
  intros Hparts Hnone.
  rewrite (fillRadii_imap xScale parts (makePart_finite _ _ _ _ Hparts)).
  assert (Hfalsy : Forall (fun p => has_radius p = false) parts).
  { apply Forall_forall. intros p Hp.
    destruct (has_radius p) eqn:Hr; [|reflexivity].
    assert (existsb has_radius parts = true); [|congruence].
    apply existsb_exists. exists p. split; [by apply list_elem_of_In | exact Hr]. }
  assert (Hradii : Forall (fun r => truthy r = false) (map Part.radius parts)).
  { apply Forall_fmap. exact Hfalsy. }
  apply list_eq. intros j. rewrite list_lookup_imap, list_lookup_fmap.
  destruct (parts !! j) as [p|] eqn:Hp; simpl; [|reflexivity].
  rewrite Forall_lookup in Hfalsy. unfold resolved.
  rewrite (Hfalsy j p Hp), (inferred_radius_default _ j Hradii). reflexivity.
Qed.

End InferenceDefault.

Lemma Array_sort_Sorted_id {A} (cmp : A -> A -> Z) (l : list A) :
  Sorted (keeps cmp) l -> Array_sort cmp l = l.
Proof.
  induction 1 as [|a l Hs IH Hhd]; simpl; [reflexivity|].
  rewrite IH. destruct Hhd as [|b l' Hab]; simpl; [reflexivity|].
  unfold keeps in Hab. by rewrite (proj2 (Z.ltb_ge 0 (cmp a b)) Hab).
Qed.

Lemma Sorted_good_StronglySorted (parts : list Part.t) :
  Forall good parts ->
  Sorted (keeps compareParts) parts -> StronglySorted (keeps compareParts) parts.
Proof.
  intros Hgood Hs. induction Hs as [|a l Hs IH Hhd]; [constructor|].
  apply Forall_cons in Hgood as [Hga Hgl]. specialize (IH Hgl).
  constructor; [exact IH|].
  destruct Hhd as [|b l' Hab]; [constructor|].
  apply StronglySorted_inv in IH as [_ Hb].
  apply Forall_cons in Hgl as [Hgb Hgl'].
  constructor; [exact Hab|].
  rewrite Forall_forall in Hb, Hgl'. apply Forall_forall. intros x Hx.
  apply (compareParts_trans a b x); auto.
Qed.

(** X10. For parts whose keys ([left.y2] and [radius]) are not [NaN], so
    that the comparator is consistent, the sort of
    [getConstructionElements] returns parts that are already in drawing
    order unchanged: when the comparator lets every part stay before its
    successor, the list is in z-order (deeper first, wider first among
    equal depths) and the sorted list is the list itself. *)
Theorem sort_keeps_ordered_parts (parts : list Part.t) :
  Forall good parts ->
  Sorted (keeps compareParts) parts ->
  StronglySorted precedes parts /\
  Array_sort compareParts parts = parts.
Proof.
  intros Hgood Hs. split.
  - apply StronglySorted_good; [exact Hgood|].
    by apply Sorted_good_StronglySorted.
  - by apply Array_sort_Sorted_id.
Qed.

Section OverlayHeight.
Context `{Imports State}.

Lemma Math_max_clamp (b t : Q) :
  Math_max [num_sub (Fin b) (Fin t); Fin 0] =
  if Qle_bool b t then Fin 0 else Fin (Qred (b - t)).
Proof.
  unfold Math_max. simpl.
  destruct (Qlt_bool (Qred (b - t)) 0) eqn:Hneg;
    destruct (Qle_bool b t) eqn:Hle; try reflexivity.
  - Qbool. rewrite Qred_correct in Hneg.
    apply not_true_iff_false in Hle. rewrite Qle_bool_iff in Hle. lra.
  - Qbool. rewrite Qred_correct in Hneg. apply Qle_bool_iff in Hle.
    assert (Hz : (b - t == 0)%Q) by lra.
    apply Qred_complete in Hz. by rewrite Hz.
Qed.

(** X11. With a cursor datum and a vertical scale that maps both the
    cursor value and the construction bottom to finite pixels [t] and [b],
    the overlay of [getWellWaterLevel] has height [b - t] when the bottom
    lies below the cursor level ([t < b]) and height [0] otherwise. *)
Theorem getWellWaterLevel_height (chartType : ChartType) (s : State)
    (datum : Datum.t) (extentY : num * num) (t b : Q) :
  getCursorDatum s = Some datum ->
  getConstructionExtentY s = Ok extentY ->
  Scale.call (getScaleY chartType s) (Datum.value datum) = Fin t ->
  Scale.call (getScaleY chartType s) (snd extentY) = Fin b ->
  exists rect,
    getWellWaterLevel chartType s = Ok (Some rect) /\
    Rect.y rect = Fin t /\
    Rect.height rect = if Qle_bool b t then Fin 0 else Fin (Qred (b - t)).
Proof.
  intros Hcursor Hext Ht Hb. unfold getWellWaterLevel, wellWaterLevel.
  rewrite Hext, Hcursor. cbn [rbind]. rewrite Ht, Hb.
  eexists. split; [reflexivity|]. simpl. split; [reflexivity|].
  apply Math_max_clamp.
Qed.

End OverlayHeight.

(** * Further properties of the median table and the service state *)

Section MedianTableDraws.
Context {Sample : Type}.

(** X12. [drawTableBody] hands the samples to the list in the reverse of
    the order the array of the record held them, leaves that array in the
    listed order, and touches no other array; a record without [samples]
    lists nothing and changes nothing. *)
Theorem drawTableBody_listing (h : gmap loc (list Sample)) (wl : WaterLevels.t) :
  match WaterLevels.samples wl with
  | Some l =>
      (drawTableBody h wl).2 = reverse (default [] (h !! l)) /\
      default [] ((drawTableBody h wl).1 !! l) = (drawTableBody h wl).2 /\
      map_Forall (fun l' arr => l' = l \/ (drawTableBody h wl).1 !! l' = Some arr) h
  | None => drawTableBody h wl = (h, [])
  end.
Proof.
  unfold drawTableBody, Array_reverse.
  destruct (WaterLevels.samples wl) as [l|]; [|reflexivity].
  destruct (h !! l) as [arr|] eqn:Harr; simpl.
  - rewrite lookup_insert_eq. simpl. repeat split.
    intros l' arr' Hl'. destruct (decide (l' = l)) as [->|Hne]; [by left|].
    right. by rewrite lookup_insert_ne.
  - rewrite Harr. simpl. repeat split. intros l' arr' Hl'. by right.
Qed.

(** X13. Drawing the table twice from the same record puts every array
    back as it was, and the second draw lists the samples in the order the
    array held them before the first draw. *)
Theorem drawTableBody_twice (h : gmap loc (list Sample)) (wl : WaterLevels.t) :
  (drawTableBody (drawTableBody h wl).1 wl).1 = h /\
  (drawTableBody (drawTableBody h wl).1 wl).2 =
  match WaterLevels.samples wl with
  | Some l => default [] (h !! l)
  | None => []
  end.
Proof.
  unfold drawTableBody, Array_reverse.
  destruct (WaterLevels.samples wl) as [l|]; [|done].
  destruct (h !! l) as [arr|] eqn:Harr; simpl.
  - rewrite !lookup_insert_eq. simpl.
    rewrite reverse_involutive, insert_insert_eq. split; [|reflexivity].
    by apply insert_id.
  - rewrite !Harr. simpl. by rewrite ?Harr.
Qed.

End MedianTableDraws.

(** X14. The service state as its test suite exercises it (the module
    itself is modelled): in any state, a site whose key holds no data reads
    as the empty record, whatever other sites the state holds, and a site
    whose key holds data reads as that record; a site never requested has
    no status; after a set of the records of a site they are read back as
    given, with the status of the site untouched; after a set of the
    status it is read back, with the records of the site untouched. *)
Theorem service_round_trip (agencyCode siteId : string) (waterLevels : WaterLevels.t)
    (c : CallStatus) (st : Service.t) :
  match Service.data st !! siteKey agencyCode siteId with
  | None => getSiteWaterLevels agencyCode siteId st = WaterLevels.empty
  | Some stored => getSiteWaterLevels agencyCode siteId st = stored
  end /\
  getSiteWaterLevels "USSS" "12345678" example_service = WaterLevels.empty /\
  getSiteWaterLevels agencyCode siteId Service.empty = WaterLevels.empty /\
  getWaterLevelStatus agencyCode siteId Service.empty = None /\
  getSiteWaterLevels agencyCode siteId
    (reducer st (WATER_LEVELS_SET agencyCode siteId waterLevels)) = waterLevels /\
  getWaterLevelStatus agencyCode siteId
    (reducer st (WATER_LEVELS_SET agencyCode siteId waterLevels)) =
    getWaterLevelStatus agencyCode siteId st /\
  getWaterLevelStatus agencyCode siteId
    (reducer st (WATER_LEVELS_CALL_STATUS agencyCode siteId c)) = Some c /\
  getSiteWaterLevels agencyCode siteId
    (reducer st (WATER_LEVELS_CALL_STATUS agencyCode siteId c)) =
    getSiteWaterLevels agencyCode siteId st.
Proof.
  split; [|split; [reflexivity|]].
  { unfold getSiteWaterLevels. by destruct (Service.data st !! _). }
  unfold getSiteWaterLevels, getWaterLevelStatus. simpl.
  rewrite !lookup_empty, !lookup_insert_eq. done.
Qed.

(** * The further properties at concrete inputs *)

Lemma unknown_site_defaults_example :
  getWellLogs unknown_site_state !! getCurrentSiteID unknown_site_state = None /\
  getWellLogExtentY unknown_site_state = Ok (Fin 0, Fin 0) /\
  getWellRadius unknown_site_state = Ok (Fin 1) /\
  getConstructionElements "lithology" unknown_site_state = Ok [].
Proof.
  assert (Hsite : getWellLogs unknown_site_state !! getCurrentSiteID unknown_site_state
                  = None) by reflexivity.
  destruct (unknown_site_defaults unknown_site_state Hsite)
    as (_ & _ & _ & _ & Hext & Hr & Hct).
  split; [exact Hsite|]. split; [exact Hext|]. split; [exact Hr|].
  exact (proj2 (Hct "lithology")).
Defined.

Lemma getConstructionExtentY_min_max_example :
  getConstructionExtentY (example_state (WellLog.mk None (Some radii_2005))) =
  Ok (Fin 0, Fin 40).
Proof.
  assert (Hne : getDrawableElements (example_state (WellLog.mk None (Some radii_2005)))
                <> []) by (vm_compute; discriminate).
  destruct (getConstructionExtentY_min_max _ Hne) as (lo & hi & Heq & _).
  rewrite Heq. vm_compute in Heq. by injection Heq as -> ->.
Defined.

Lemma getWellRadius_default_example :
  getWellRadius (example_state (WellLog.mk None (Some [casing 0 10 (diam None)]))) =
  Ok (Fin 1).
Proof.
  apply (getWellRadius_default
           (example_state (WellLog.mk None (Some [casing 0 10 (diam None)])))).
  reflexivity.
Defined.

Lemma getWellRadius_bound_example :
  getWellRadius (example_state (WellLog.mk None (Some radii_2005))) = Ok (Fin 5) /\
  Forall (on_diameter (fun v => num_lt (Fin 5) (Fin (v / 2)) = false))
         (getDrawableElements (example_state (WellLog.mk None (Some radii_2005)))).
Proof.
  assert (Hr : getWellRadius (example_state (WellLog.mk None (Some radii_2005)))
               = Ok (Fin 5)) by reflexivity.
  split; [exact Hr|].
  exact (proj2 (getWellRadius_bound _ _ Hr)).
Defined.

Lemma getConstructionElements_parts_example :
  let s := example_state (WellLog.mk None (Some radii_2005)) in
  exists sorted xScale,
    getConstructionElements "lithology" s = Ok sorted /\
    getRadiusScale "lithology" s = Ok xScale /\
    length sorted = 4%nat /\
    Forall (fun p => level_sides p /\ exists r, part_xs p = xs_at xScale r) sorted.
Proof.
  intros s.
  destruct (getConstructionElements "lithology" s) as [sorted|] eqn:Hsorted;
    [|vm_compute in Hsorted; discriminate].
  destruct (getConstructionElements_parts "lithology" s sorted Hsorted)
    as (xScale & Hscale & Hlen & _ & Hall).
  exists sorted, xScale. split; [reflexivity|]. split; [exact Hscale|].
  split; [exact Hlen | exact Hall].
Defined.

Lemma fillRadii_complete_example :
  forallb has_radius ordered_parts = true /\
  fillRadii identity_scale ordered_parts = ordered_parts.
Proof.
  split; [reflexivity|]. apply fillRadii_complete. reflexivity.
Defined.

Lemma fillRadii_no_radius_example :
  exists parts,
    rmap (makePart identity_scale identity_scale) no_diameter_values = Ok parts /\
    existsb has_radius parts = false /\
    map part_xs (fillRadii identity_scale parts) =
    [(Some (Fin (-1)), Some (Fin 1)); (Some (Fin (-1)), Some (Fin 1))].
Proof.
  eexists. split; [reflexivity|]. split; [reflexivity|].
  rewrite (fillRadii_no_radius identity_scale identity_scale no_diameter_values _
             eq_refl eq_refl).
  reflexivity.
Defined.

Lemma sort_keeps_ordered_parts_example :
  Forall good ordered_parts /\
  Sorted (keeps compareParts) ordered_parts /\
  Array_sort compareParts ordered_parts = ordered_parts.
Proof.
  assert (Hgood : Forall good ordered_parts).
  { repeat constructor. }
  assert (Hs : Sorted (keeps compareParts) ordered_parts).
  { repeat constructor; vm_compute; discriminate. }
  split; [exact Hgood|]. split; [exact Hs|].
  exact (proj2 (sort_keeps_ordered_parts ordered_parts Hgood Hs)).
Defined.

Lemma getWellWaterLevel_height_example :
  exists rect,
    getWellWaterLevel "lithology" (example_state (WellLog.mk None (Some radii_2005))) =
    Ok (Some rect) /\
    Rect.y rect = Fin 3 /\ Rect.height rect = Fin 37.
Proof.
  destruct (getWellWaterLevel_height "lithology"
              (example_state (WellLog.mk None (Some radii_2005)))
              {| Datum.value := Fin 3 |} (Fin 0, Fin 40) 3 40)
    as (rect & Hrect & Hy & Hh); try reflexivity.
  exists rect. split; [exact Hrect|]. split; [exact Hy | exact Hh].
Defined.

Lemma getWellLogExtentY_contains_surface_example :
  getWellLogExtentY (example_state deep_construction) = Ok (Fin 0, Fin 10).
Proof.
  assert (Hnil : getWellLogEntries (example_state deep_construction) = [])
    by reflexivity.
  destruct (getWellLogExtentY_contains_surface _ Hnil) as (lo & hi & Heq & _).
  rewrite Heq. vm_compute in Heq. by injection Heq as -> ->.
Defined.

Lemma getWellLogExtentY_hull_example :
  let s := example_state
             (WellLog.mk (Some [entry 5 10; entry 2 20]) (Some radii_2005)) in
  exists lo hi,
    getWellLogExtentY s = Ok (Fin lo, Fin hi) /\
    Forall (fun e =>
      (lo <= Coordinates.start (Shape.coordinates (Entry.shape e)) <= hi)%Q /\
      (lo <= Coordinates.end_ (Shape.coordinates (Entry.shape e)) <= hi)%Q)
      (getWellLogEntries s) /\
    Forall (on_coordinates (fun c =>
      (lo <= Coordinates.start c <= hi)%Q /\ (lo <= Coordinates.end_ c <= hi)%Q))
      (getDrawableElements s).
Proof.
  intros s. apply (getWellLogExtentY_hull s).
  - repeat constructor; vm_compute; discriminate.
  - repeat constructor; vm_compute; discriminate.
Defined.

(** With the range [[0, 100]] the overlay spans the range. *)
Example overlay_spans_from_zero :
  let s := example_state (WellLog.mk None (Some radii_2005)) in
  rbind (getWellWaterLevel "lithology" s)
        (fun rect => Ok (option_map (fun r => spans r (Scale.range (getScaleX "lithology" s)))
                                    rect)) =
  Ok (Some true).
Proof. reflexivity. Qed.
